(** * groupcache/lru: a shallow embedding of [lru.go] and its properties

    The Go package keeps an LRU cache as a [container/list] doubly linked
    list of nodes (front = most recently used) together with a Go map from
    keys to node pointers.  The embedding keeps that shape: node pointers
    are addresses, the payload of every node lives in a store indexed by
    address (so the map and the list alias the same node), the list is the
    sequence of node addresses from front to back, and a nil pointer is
    [None].  A Go run-time panic (nil dereference, write to a nil map) is
    the result [None] of a computation.

    What the embedding takes for granted:
    - keys are compared by Go's [==], taken to be a decidable equality on a
      countable type; a key of an uncomparable dynamic type makes the Go
      map panic, and a key that differs from itself (a NaN) is never found
      again, and neither is modelled;
    - [MaxEntries] is a Go [int]; it is only compared, never computed with,
      so it is an unbounded integer here;
    - [OnEvicted] does not call back into the cache (the package is not
      reentrant); a call is recorded with its arguments and changes nothing
      else;
    - [container/list] is the Go standard library, modelled by what its
      documentation says of the five methods used;
    - a [range] over a Go map visits its pairs in an unspecified order, so
      [Clear] is run for every order. *)

From stdpp Require Import gmap strings list fin_maps pretty.
From Stdlib Require Import ZArith.

Local Open Scope Z_scope.

(** ** Go's [container/list], as far as [lru.go] uses it *)

(** A [*list.Element] is the address of a list node. *)
Abbreviation Element := nat (only parsing).

Module GoList.

(** The nodes of a list, front first.  A node is linked at most once, so
    unlinking a node is dropping its address from the sequence. *)
Abbreviation List := (list Element) (only parsing).

Definition New : List := [].

Definition PushFront (e : Element) (l : List) : List := e :: l.

Definition Remove (e : Element) (l : List) : List :=
  filter (λ x, x ≠ e) l.

(** [MoveToFront] does nothing when [e] is not a node of [l] or is
    already its first node. *)
Definition MoveToFront (e : Element) (l : List) : List :=
  if decide (e ∈ l) then
    match l with
    | x :: _ => if decide (x = e) then l else e :: Remove e l
    | [] => l
    end
  else l.

Definition Back (l : List) : option Element := last l.

Definition Len (l : List) : Z := Z.of_nat (length l).

End GoList.

(** ** The cache *)

Section lru.

(** A [Key] is any comparable Go value; [Value] is [interface{}]. *)
Context `{Countable Key} {Value : Type}.

Record entry := mk_entry { key : Key; value : Value }.

(** [type Cache struct].  [OnEvicted] is a Go func value owned by the
    caller: the cache only compares it with nil and calls it, so the field
    records whether it is set, and a call is recorded in [calls] below. *)
Record Cache := mk_Cache {
  MaxEntries : Z;
  OnEvicted : bool;
  ll : option GoList.List;
  cache : option (gmap Key Element)
}.

(** The memory a cache [c] lives in: the struct itself, the payload
    of every allocated list node (the entry its [Value] points to), and the calls made to
    [c.OnEvicted] so far, oldest first. *)
Record Mem := mk_Mem {
  self : Cache;
  elems : gmap Element entry;
  calls : list (Key * Value)
}.

(** Computations over the memory; [None] is a panic. *)
Definition M (A : Type) : Type := Mem → option (A * Mem).

Definition ret {A} (a : A) : M A := λ m, Some (a, m).

Definition bind {A B} (c : M A) (k : A → M B) : M B :=
  λ m, match c m with
       | Some (a, m') => k a m'
       | None => None
       end.

Local Notation "x <~ c1 ;; c2" := (bind c1 (λ x, c2))
  (at level 100, c1 at next level, right associativity).
Local Notation "c1 ;;; c2" := (bind c1 (λ _, c2))
  (at level 100, right associativity).

(** *** Field accesses *)

Definition with_ll (l : option GoList.List) (c : Cache) : Cache :=
  mk_Cache (MaxEntries c) (OnEvicted c) l (cache c).

Definition with_cache (mp : option (gmap Key Element)) (c : Cache) : Cache :=
  mk_Cache (MaxEntries c) (OnEvicted c) (ll c) mp.

Definition with_MaxEntries (n : Z) (c : Cache) : Cache :=
  mk_Cache n (OnEvicted c) (ll c) (cache c).

Definition with_OnEvicted (b : bool) (c : Cache) : Cache :=
  mk_Cache (MaxEntries c) b (ll c) (cache c).

Definition on_self (f : Cache → Cache) (m : Mem) : Mem :=
  mk_Mem (f (self m)) (elems m) (calls m).

Definition load {A} (f : Cache → A) : M A := λ m, Some (f (self m), m).

Definition store_ll (l : option GoList.List) : M unit :=
  λ m, Some (tt, on_self (with_ll l) m).

Definition store_cache (mp : option (gmap Key Element)) : M unit :=
  λ m, Some (tt, on_self (with_cache mp) m).

(** *** Method calls on [c.ll]

    A call through a nil [c.ll] is a panic here.  Go panics in most of
    these calls and returns silently in a few; the functions below return on
    every memory that satisfies the invariant, so no reachable state tells
    the two apart. *)

Definition ll_PushFront (en : entry) : M Element :=
  λ m, match ll (self m) with
       | Some l =>
           let e := fresh (dom (elems m)) in
           Some (e, mk_Mem (with_ll (Some (GoList.PushFront e l)) (self m))
                           (<[e := en]> (elems m)) (calls m))
       | None => None
       end.

Definition ll_MoveToFront (e : Element) : M unit :=
  λ m, match ll (self m) with
       | Some l => Some (tt, on_self (with_ll (Some (GoList.MoveToFront e l))) m)
       | None => None
       end.

Definition ll_Remove (e : Element) : M unit :=
  λ m, match ll (self m) with
       | Some l => Some (tt, on_self (with_ll (Some (GoList.Remove e l))) m)
       | None => None
       end.

Definition ll_Back : M (option Element) :=
  λ m, match ll (self m) with
       | Some l => Some (GoList.Back l, m)
       | None => None
       end.

Definition ll_Len : M Z :=
  λ m, match ll (self m) with
       | Some l => Some (GoList.Len l, m)
       | None => None
       end.

(** *** Node payloads: the entry behind [e.Value] *)

Definition deref (e : Element) : M entry :=
  λ m, match elems m !! e with
       | Some en => Some (en, m)
       | None => None
       end.

(** The assignment to the [value] field of the entry behind [e.Value]. *)
Definition set_value (e : Element) (v : Value) : M unit :=
  λ m, match elems m !! e with
       | Some en =>
           Some (tt, mk_Mem (self m) (<[e := mk_entry (key en) v]> (elems m)) (calls m))
       | None => None
       end.

(** *** The Go map [c.cache]: reading or deleting from a nil map is
    allowed, writing to one panics *)

Definition map_lookup (k : Key) : M (option Element) :=
  λ m, match cache (self m) with
       | Some mp => Some (mp !! k, m)
       | None => Some (None, m)
       end.

Definition map_store (k : Key) (e : Element) : M unit :=
  λ m, match cache (self m) with
       | Some mp => Some (tt, on_self (with_cache (Some (<[k := e]> mp))) m)
       | None => None
       end.

Definition map_delete (k : Key) : M unit :=
  λ m, match cache (self m) with
       | Some mp => Some (tt, on_self (with_cache (Some (delete k mp))) m)
       | None => Some (tt, m)
       end.

(** *** The callback *)

Definition call_OnEvicted (k : Key) (v : Value) : M unit :=
  λ m, Some (tt, mk_Mem (self m) (elems m) (calls m ++ [(k, v)])).

(** *** The functions of [lru.go] *)

(** [New(maxEntries)] and the zero value [&Cache{}], each in a memory
    with no list node allocated and no callback call made. *)
Definition New (maxEntries : Z) : Mem :=
  mk_Mem (mk_Cache maxEntries false (Some GoList.New) (Some ∅)) ∅ [].

Definition zero_Cache : Mem :=
  mk_Mem (mk_Cache 0 false None None) ∅ [].

Definition removeElement (e : Element) : M unit :=
  ll_Remove e ;;;
  kv <~ deref e ;;
  map_delete (key kv) ;;;
  cb <~ load OnEvicted ;;
  if cb then call_OnEvicted (key kv) (value kv) else ret tt.

Definition RemoveOldest : M unit :=
  mp <~ load cache ;;
  match mp with
  | None => ret tt
  | Some _ =>
      ele <~ ll_Back ;;
      match ele with
      | Some e => removeElement e
      | None => ret tt
      end
  end.

Definition Add (k : Key) (v : Value) : M unit :=
  mp <~ load cache ;;
  match mp with
  | None => store_cache (Some ∅) ;;; store_ll (Some GoList.New)
  | Some _ => ret tt
  end ;;;
  hit <~ map_lookup k ;;
  match hit with
  | Some ee => ll_MoveToFront ee ;;; set_value ee v
  | None =>
      ele <~ ll_PushFront (mk_entry k v) ;;
      map_store k ele ;;;
      mx <~ load MaxEntries ;;
      if bool_decide (mx ≠ 0) then
        n <~ ll_Len ;;
        if bool_decide (n > mx) then RemoveOldest else ret tt
      else ret tt
  end.

(** [Get] returns [(value, ok)]; [Some v] stands for [(v, true)] and
    [None] for the zero result [(nil, false)]. *)
Definition Get (k : Key) : M (option Value) :=
  mp <~ load cache ;;
  match mp with
  | None => ret None
  | Some _ =>
      hit <~ map_lookup k ;;
      match hit with
      | Some ele =>
          ll_MoveToFront ele ;;;
          kv <~ deref ele ;;
          ret (Some (value kv))
      | None => ret None
      end
  end.

Definition Remove (k : Key) : M unit :=
  mp <~ load cache ;;
  match mp with
  | None => ret tt
  | Some _ =>
      hit <~ map_lookup k ;;
      match hit with
      | Some ele => removeElement ele
      | None => ret tt
      end
  end.

Definition Len : M Z :=
  mp <~ load cache ;;
  match mp with
  | None => ret 0
  | Some _ => ll_Len
  end.

(** The body of [for _, e := range c.cache] in [Clear], run over the
    map's pairs in the order [ord] the iteration happens to take. *)
Fixpoint Clear_loop (ord : list (Key * Element)) : M unit :=
  match ord with
  | [] => ret tt
  | (_, e) :: rest =>
      kv <~ deref e ;;
      call_OnEvicted (key kv) (value kv) ;;;
      Clear_loop rest
  end.

Definition Clear_in (ord : list (Key * Element)) : M unit :=
  cb <~ load OnEvicted ;;
  (if cb then Clear_loop ord else ret tt) ;;;
  store_ll None ;;;
  store_cache None.

(** The pairs a [range] over [c.cache] visits; none for a nil map. *)
Definition range_cache (m : Mem) : list (Key * Element) :=
  match cache (self m) with
  | Some mp => map_to_list mp
  | None => []
  end.

(** Go leaves the iteration order of a map unspecified: [Clear] may run
    its loop in any order of the pairs. *)
Definition Clear_order (m : Mem) (ord : list (Key * Element)) : Prop :=
  ord ≡ₚ range_cache m.

(** [Clear] with the order [map_to_list] gives, for running it. *)
Definition Clear : M unit := λ m, Clear_in (range_cache m) m.

(** ** What a memory holds, for stating properties *)

Definition pair_of (en : entry) : Key * Value := (key en, value en).

(** The entries of the recency list, front (most recently used) first. *)
Definition contents (m : Mem) : list (Key * Value) :=
  match ll (self m) with
  | Some l => omap (λ e, pair_of <$> elems m !! e) l
  | None => []
  end.

(** The value reached from key [k] through the index, without touching
    the recency order. *)
Definition stored (k : Key) (m : Mem) : option Value :=
  mp ← cache (self m); e ← mp !! k; value <$> elems m !! e.

(** After each [Add] of [kvs] in turn, observe [Len]. *)
Fixpoint Add_each (kvs : list (Key * Value)) : M (list Z) :=
  match kvs with
  | [] => ret []
  | (k, v) :: rest =>
      Add k v ;;;
      n <~ Len ;;
      ns <~ Add_each rest ;;
      ret (n :: ns)
  end.

(** *** States a client of the package can reach *)

(** One action of a client: a call of an exported method, or an
    assignment to an exported field. *)
Inductive step : Mem → Mem → Prop :=
  | step_Add k v m m' : Add k v m = Some (tt, m') → step m m'
  | step_Get k r m m' : Get k m = Some (r, m') → step m m'
  | step_Remove k m m' : Remove k m = Some (tt, m') → step m m'
  | step_RemoveOldest m m' : RemoveOldest m = Some (tt, m') → step m m'
  | step_Len n m m' : Len m = Some (n, m') → step m m'
  | step_Clear ord m m' :
      Clear_order m ord → Clear_in ord m = Some (tt, m') → step m m'
  | step_MaxEntries n m : step m (on_self (with_MaxEntries n) m)
  | step_OnEvicted b m : step m (on_self (with_OnEvicted b) m).

Inductive reachable : Mem → Prop :=
  | reachable_New n : reachable (New n)
  | reachable_zero : reachable zero_Cache
  | reachable_step m m' : reachable m → step m m' → reachable m'.

(** *** The representation invariant

    The list and the index are nil together; otherwise no node is linked
    twice, every linked node is allocated and indexed under its own key,
    and every index pair points to a linked node carrying that key. *)
Definition wf (m : Mem) : Prop :=
  match ll (self m), cache (self m) with
  | Some l, Some mp =>
      NoDup l ∧
      (∀ e, e ∈ l → ∃ en, elems m !! e = Some en ∧ mp !! key en = Some e) ∧
      (∀ k e, mp !! k = Some e →
              e ∈ l ∧ ∃ en, elems m !! e = Some en ∧ key en = k)
  | None, None => True
  | _, _ => False
  end.

(** The memory after [removeElement e], where [en] is the payload of [e]. *)
Definition evicted (e : Element) (en : entry) (m : Mem) : Mem :=
  mk_Mem
    (mk_Cache (MaxEntries (self m)) (OnEvicted (self m))
              (GoList.Remove e <$> ll (self m))
              (delete (key en) <$> cache (self m)))
    (elems m)
    (calls m ++ if OnEvicted (self m) then [pair_of en] else []).

(** The memory after the hit branch of [Add]: node [e] moved to the
    front and its payload replaced by [en]. *)
Definition updated (e : Element) (en : entry) (m : Mem) : Mem :=
  mk_Mem (with_ll (GoList.MoveToFront e <$> ll (self m)) (self m))
         (<[e := en]> (elems m)) (calls m).

(** The memory after the miss branch of [Add], before the capacity
    test: a new node at the front, indexed under [k]. *)
Definition pushed (k : Key) (v : Value) (m : Mem) : Mem :=
  let e := fresh (dom (elems m)) in
  mk_Mem
    (mk_Cache (MaxEntries (self m)) (OnEvicted (self m))
              (GoList.PushFront e <$> ll (self m))
              (<[k := e]> <$> cache (self m)))
    (<[e := mk_entry k v]> (elems m))
    (calls m).

(** The capacity test of [Add] after a push: [MaxEntries] is nonzero and
    one entry more than the memory holds exceeds it. *)
Definition over_capacity (m : Mem) : bool :=
  bool_decide (MaxEntries (self m) ≠ 0)
  && bool_decide (Z.of_nat (length (contents m)) + 1 > MaxEntries (self m)).

(** The call sequences of the two concrete scenarios. *)
Definition Add_Add_Get (a b : Key) (va vb : Value) : M (option Value) :=
  Add a va ;;; Add b vb ;;; Get a.

Definition Add_Add (a b : Key) (va vb : Value) : M unit :=
  Add a va ;;; Add b vb.

(** The cache of capacity 2 with a callback set, after [Add a va] and
    [Add b vb]; [New 2] stands in should the calls panic, which they never
    do. *)
Definition two_entries (a b : Key) (va vb : Value) : Mem :=
  match Add_Add a b va vb (on_self (with_OnEvicted true) (New 2)) with
  | Some (_, m) => m
  | None => New 2
  end.

(** *** [String]

    [fmt.Sprintf] prints a key and a value under the verb [%v] by their
    dynamic types; the two printers are parameters here.  The loop of
    [String] is a [range] over the index like the one of [Clear], run over
    the pairs in the order [ord]. *)
Variable fmt_key : Key → string.
Variable fmt_value : Value → string.

Definition newline : string := String (Ascii.ascii_of_nat 10) EmptyString.

(** [Sprintf] at the format of [String], for the index key [k] and the
    entry [kv] its node carries. *)
Definition String_line (k : Key) (kv : entry) : string :=
  "key: " +:+ fmt_key k +:+ ", element: {key: " +:+ fmt_key (key kv)
  +:+ ", value: " +:+ fmt_value (value kv) +:+ "}" +:+ newline.

Fixpoint String_loop (ord : list (Key * Element)) (s : string) : M string :=
  match ord with
  | [] => ret s
  | (k, e) :: rest =>
      kv <~ deref e ;;
      String_loop rest (s +:+ String_line k kv)
  end.

Definition String_in (ord : list (Key * Element)) : M string :=
  String_loop ord "".

(** *** Call sequences *)

Fixpoint Add_all (kvs : list (Key * Value)) : M unit :=
  match kvs with
  | [] => ret tt
  | (k, v) :: rest => Add k v ;;; Add_all rest
  end.

(** [RemoveOldest] called [n] times. *)
Fixpoint RemoveOldest_n (n : nat) : M unit :=
  match n with
  | O => ret tt
  | S n' => RemoveOldest ;;; RemoveOldest_n n'
  end.

(** The states a client reaches from [New c] when it never assigns
    another value to [MaxEntries]. *)
Inductive reachable_at (c : Z) : Mem → Prop :=
  | reachable_at_New : reachable_at c (New c)
  | reachable_at_step m m' :
      reachable_at c m → step m m' → MaxEntries (self m') = c →
      reachable_at c m'.

(** Unfolds the functions and the primitive accesses. *)
Ltac run :=
  unfold Add, Get, Remove, RemoveOldest, Len, Clear_in, removeElement,
    bind, ret, load, store_ll, store_cache, ll_PushFront, ll_MoveToFront,
    ll_Remove, ll_Back, ll_Len, deref, set_value, map_lookup, map_store,
    map_delete, call_OnEvicted, on_self, with_ll, with_cache; simpl.

(** ** Facts about the list model *)

Lemma Remove_elem_of e x (l : GoList.List) :
  x ∈ GoList.Remove e l ↔ x ∈ l ∧ x ≠ e.
Proof. unfold GoList.Remove. rewrite list_elem_of_filter. tauto. Qed.

Lemma Remove_NoDup e (l : GoList.List) : NoDup l → NoDup (GoList.Remove e l).
Proof. apply NoDup_filter. Qed.

Lemma Remove_unlinked e (l : GoList.List) : e ∉ l → GoList.Remove e l = l.
Proof.
  unfold GoList.Remove. induction l as [|x l IH]; intros Hne; [done|].
  apply not_elem_of_cons in Hne as [Hx Hl].
  rewrite filter_cons_True by congruence. by rewrite IH.
Qed.

Lemma MoveToFront_linked e (l : GoList.List) :
  NoDup l → e ∈ l → GoList.MoveToFront e l = e :: GoList.Remove e l.
Proof.
  intros Hnd Hin. unfold GoList.MoveToFront.
  rewrite decide_True by done.
  destruct l as [|x l]; [by apply elem_of_nil in Hin|].
  destruct (decide (x = e)) as [->|Hne]; [|done].
  apply NoDup_cons in Hnd as [Hx _].
  unfold GoList.Remove. rewrite filter_cons_False by (intros ?; done).
  f_equal. symmetry. by apply Remove_unlinked.
Qed.

Lemma Back_split b (l : GoList.List) :
  NoDup l → GoList.Back l = Some b → l = GoList.Remove b l ++ [b].
Proof.
  unfold GoList.Back. intros Hnd [l' ->]%last_Some. f_equal.
  apply NoDup_app in Hnd as (_ & Hd & _).
  unfold GoList.Remove. rewrite filter_app, filter_cons_False by (intros ?; done).
  rewrite filter_nil, app_nil_r. symmetry. apply Remove_unlinked.
  intros Hb. apply (Hd b Hb). by apply list_elem_of_singleton.
Qed.

(** ** Each function of [lru.go], run on a memory *)

Lemma removeElement_run e en l m :
  ll (self m) = Some l → elems m !! e = Some en →
  removeElement e m = Some (tt, evicted e en m).
Proof.
  destruct m as [[mx cb ol omp] el cs]; simpl. intros -> Hen.
  unfold evicted; run. rewrite Hen; simpl.
  destruct omp, cb; simpl; by rewrite ?app_nil_r.
Qed.

Lemma RemoveOldest_nil m :
  cache (self m) = None → RemoveOldest m = Some (tt, m).
Proof. destruct m as [[mx cb ol omp] el cs]; simpl. intros ->. done. Qed.

Lemma RemoveOldest_empty mp l m :
  cache (self m) = Some mp → ll (self m) = Some l → GoList.Back l = None →
  RemoveOldest m = Some (tt, m).
Proof.
  destruct m as [[mx cb ol omp] el cs]; simpl. intros -> -> Hb.
  run. by rewrite Hb.
Qed.

Lemma RemoveOldest_back mp l b en m :
  cache (self m) = Some mp → ll (self m) = Some l →
  GoList.Back l = Some b → elems m !! b = Some en →
  RemoveOldest m = Some (tt, evicted b en m).
Proof.
  intros Hmp Hl Hb Hen. rewrite <- (removeElement_run b en l m Hl Hen).
  destruct m as [[mx cb ol omp] el cs]; simpl in *. subst.
  unfold RemoveOldest, bind, load, ll_Back; simpl. by rewrite Hb.
Qed.

Lemma Get_nil k m : cache (self m) = None → Get k m = Some (None, m).
Proof. destruct m as [[mx cb ol omp] el cs]; simpl. intros ->. done. Qed.

Lemma Get_miss k mp m :
  cache (self m) = Some mp → mp !! k = None → Get k m = Some (None, m).
Proof.
  destruct m as [[mx cb ol omp] el cs]; simpl. intros -> Hk.
  run. by rewrite Hk.
Qed.

Lemma Get_hit k mp e l en m :
  cache (self m) = Some mp → mp !! k = Some e →
  ll (self m) = Some l → elems m !! e = Some en →
  Get k m = Some (Some (value en), updated e en m).
Proof.
  destruct m as [[mx cb ol omp] el cs]; simpl. intros -> Hk -> Hen.
  unfold updated; run. rewrite Hk; simpl. rewrite Hen.
  by rewrite (insert_id el e en).
Qed.

Lemma Remove_nil k m : cache (self m) = None → Remove k m = Some (tt, m).
Proof. destruct m as [[mx cb ol omp] el cs]; simpl. intros ->. done. Qed.

Lemma Remove_miss k mp m :
  cache (self m) = Some mp → mp !! k = None → Remove k m = Some (tt, m).
Proof.
  destruct m as [[mx cb ol omp] el cs]; simpl. intros -> Hk.
  run. by rewrite Hk.
Qed.

Lemma Remove_hit k mp e l en m :
  cache (self m) = Some mp → mp !! k = Some e →
  ll (self m) = Some l → elems m !! e = Some en →
  Remove k m = Some (tt, evicted e en m).
Proof.
  intros Hmp Hk Hl Hen. rewrite <- (removeElement_run e en l m Hl Hen).
  destruct m as [[mx cb ol omp] el cs]; simpl in *. subst.
  unfold Remove, bind, load, map_lookup; simpl. by rewrite Hk.
Qed.

Lemma Len_nil m : cache (self m) = None → Len m = Some (0, m).
Proof. destruct m as [[mx cb ol omp] el cs]; simpl. intros ->. done. Qed.

Lemma Len_list mp l m :
  cache (self m) = Some mp → ll (self m) = Some l →
  Len m = Some (GoList.Len l, m).
Proof. destruct m as [[mx cb ol omp] el cs]; simpl. intros -> ->. done. Qed.

Lemma Add_nil k v m :
  cache (self m) = None →
  Add k v m =
  Add k v (on_self (with_ll (Some GoList.New))
             (on_self (with_cache (Some ∅)) m)).
Proof. destruct m as [[mx cb ol omp] el cs]; simpl. intros ->. done. Qed.

Lemma Add_hit k v mp e l en m :
  cache (self m) = Some mp → mp !! k = Some e →
  ll (self m) = Some l → elems m !! e = Some en →
  Add k v m = Some (tt, updated e (mk_entry (key en) v) m).
Proof.
  destruct m as [[mx cb ol omp] el cs]; simpl. intros -> Hk -> Hen.
  unfold updated; run. rewrite Hk; simpl. by rewrite Hen.
Qed.

Lemma Add_miss k v mp l m :
  cache (self m) = Some mp → mp !! k = None → ll (self m) = Some l →
  Add k v m =
  if bool_decide (MaxEntries (self m) ≠ 0)
     && bool_decide (GoList.Len l + 1 > MaxEntries (self m))
  then RemoveOldest (pushed k v m)
  else Some (tt, pushed k v m).
Proof.
  destruct m as [[mx cb ol omp] el cs]; simpl. intros -> Hk ->.
  unfold pushed, Add, bind, ret, load, map_lookup, ll_PushFront, map_store,
    ll_Len, on_self, with_ll, with_cache; simpl. rewrite Hk; simpl.
  assert (GoList.Len (GoList.PushFront (fresh (dom el)) l)
          = GoList.Len l + 1) as Hlen
    by (unfold GoList.Len, GoList.PushFront; simpl; lia).
  destruct (bool_decide (mx ≠ 0)); simpl; [|done].
  rewrite Hlen. by destruct (bool_decide (GoList.Len l + 1 > mx)).
Qed.

(** ** The invariant holds initially and is kept by every function *)

Lemma MoveToFront_elem_of e x (l : list nat) :
  x ∈ GoList.MoveToFront e l ↔ x ∈ l.
Proof.
  unfold GoList.MoveToFront. destruct (decide (e ∈ l)) as [He|]; [|done].
  destruct l as [|y l]; [done|]. destruct (decide (y = e)); [done|].
  rewrite elem_of_cons, Remove_elem_of.
  destruct (decide (x = e)) as [->|]; tauto.
Qed.

Lemma MoveToFront_NoDup e (l : list nat) :
  NoDup l → NoDup (GoList.MoveToFront e l).
Proof.
  intros Hnd. destruct (decide (e ∈ l)) as [He|He].
  - rewrite MoveToFront_linked by done. apply NoDup_cons. split.
    + rewrite Remove_elem_of. tauto.
    + by apply Remove_NoDup.
  - unfold GoList.MoveToFront. by rewrite decide_False.
Qed.

Lemma wf_New n : wf (New n).
Proof.
  unfold wf, New; simpl. split; [apply NoDup_nil_2|].
  split; [intros e He; by apply elem_of_nil in He|].
  intros k e He. by rewrite lookup_empty in He.
Qed.

Lemma wf_zero : wf zero_Cache.
Proof. done. Qed.

Lemma wf_fields f m :
  (∀ c, ll (f c) = ll c) → (∀ c, cache (f c) = cache c) →
  wf m → wf (on_self f m).
Proof.
  intros Hl Hc. unfold wf, on_self; simpl. by rewrite Hl, Hc.
Qed.

Lemma wf_initialised m :
  cache (self m) = None →
  wf (on_self (with_ll (Some GoList.New)) (on_self (with_cache (Some ∅)) m)).
Proof.
  intros _. unfold wf; simpl. split; [apply NoDup_nil_2|].
  split; [intros e He; by apply elem_of_nil in He|].
  intros k e He. by rewrite lookup_empty in He.
Qed.

Lemma wf_updated e en en' l m :
  wf m → ll (self m) = Some l → e ∈ l → elems m !! e = Some en →
  key en' = key en → wf (updated e en' m).
Proof.
  destruct m as [[mx cb ol omp] el cs]; unfold wf, updated; simpl.
  intros Hwf -> He Hen Hkey. destruct omp as [mp|]; [|done]. simpl.
  destruct Hwf as (Hnd & Hl & Hm). split; [by apply MoveToFront_NoDup|].
  split.
  - intros x Hx%MoveToFront_elem_of. destruct (decide (x = e)) as [->|Hne].
    + exists en'. rewrite lookup_insert_eq. split; [done|].
      rewrite Hkey. destruct (Hl e He) as (en0 & Hen0 & Hmp). congruence.
    + rewrite lookup_insert_ne by done. by apply Hl.
  - intros k x Hk. destruct (Hm k x Hk) as (Hx & enx & Henx & Hkx).
    split; [by apply MoveToFront_elem_of|].
    destruct (decide (x = e)) as [->|Hne].
    + exists en'. rewrite lookup_insert_eq. split; [done|]. congruence.
    + exists enx. by rewrite lookup_insert_ne.
Qed.

Lemma wf_evicted e en l m :
  wf m → ll (self m) = Some l → e ∈ l → elems m !! e = Some en →
  wf (evicted e en m).
Proof.
  destruct m as [[mx cb ol omp] el cs]; unfold wf, evicted; simpl.
  intros Hwf -> He Hen. destruct omp as [mp|]; [|done]. simpl.
  destruct Hwf as (Hnd & Hl & Hm). split; [by apply Remove_NoDup|].
  destruct (Hl e He) as (en0 & Hen0 & Hmp).
  assert (en0 = en) as -> by congruence.
  split.
  - intros x [Hx Hne]%Remove_elem_of.
    destruct (Hl x Hx) as (enx & Henx & Hmx). exists enx. split; [done|].
    rewrite lookup_delete_ne; [done|]. intros Heq. rewrite Heq in Hmp.
    congruence.
  - intros k x [Hne Hk]%lookup_delete_Some.
    destruct (Hm k x Hk) as (Hx & enx & Henx & Hkx).
    split; [|by exists enx]. apply Remove_elem_of. split; [done|].
    intros ->. congruence.
Qed.

Lemma linked_allocated e l m :
  wf m → ll (self m) = Some l → e ∈ l → is_Some (elems m !! e).
Proof.
  unfold wf. intros Hwf Hl He. rewrite Hl in Hwf.
  destruct (cache (self m)); [|done].
  destruct Hwf as (_ & Hall & _). destruct (Hall e He) as (en & -> & _).
  by eexists.
Qed.

Lemma fresh_unlinked l m :
  wf m → ll (self m) = Some l → fresh (dom (elems m)) ∉ l.
Proof.
  intros Hwf Hl He. apply (linked_allocated _ _ _ Hwf Hl) in He.
  apply elem_of_dom in He. by apply is_fresh in He.
Qed.

Lemma wf_pushed k v mp m :
  wf m → cache (self m) = Some mp → mp !! k = None → wf (pushed k v m).
Proof.
  intros Hwf Hmp Hk.
  destruct (ll (self m)) as [l|] eqn:Hll;
    [|unfold wf in Hwf; by rewrite Hll, Hmp in Hwf].
  pose proof (fresh_unlinked l m Hwf Hll) as Hfr.
  assert (elems m !! fresh (dom (elems m)) = None) as Hfn
    by (apply not_elem_of_dom, is_fresh).
  destruct m as [[mx cb ol omp] el cs]; unfold wf, pushed in *; simpl in *.
  subst; simpl. destruct Hwf as (Hnd & Hl & Hm).
  unfold GoList.PushFront. split; [by apply NoDup_cons|]. split.
  - intros x [->|Hx]%elem_of_cons.
    + eexists. rewrite !lookup_insert_eq; simpl. split; [done|].
      simpl. by rewrite lookup_insert_eq.
    + destruct (Hl x Hx) as (enx & Henx & Hmx). exists enx.
      rewrite !lookup_insert_ne; [done| |]; congruence.
  - intros k' x. rewrite lookup_insert_Some. intros [[<- <-]|[Hne Hk']].
    + split; [left|]. eexists. by rewrite lookup_insert_eq.
    + destruct (Hm k' x Hk') as (Hx & enx & Henx & Hkx).
      split; [by right|]. exists enx. rewrite lookup_insert_ne; [done|].
      congruence.
Qed.

(** ** The entries held by the memories the functions produce *)

Lemma omap_cons {A B} (f : A → option B) x (l : list A) :
  omap f (x :: l)
  = match f x with Some y => y :: omap f l | None => omap f l end.
Proof. done. Qed.

Lemma omap_Remove (f : nat → option (Key * Value)) e k (l : list nat) :
  (∀ x y, x ∈ l → f x = Some y → (x ≠ e ↔ y.1 ≠ k)) →
  omap f (GoList.Remove e l) = filter (λ kv, kv.1 ≠ k) (omap f l).
Proof.
  unfold GoList.Remove. induction l as [|x l IH]; intros Hf; [done|].
  assert (∀ x y, x ∈ l → f x = Some y → (x ≠ e ↔ y.1 ≠ k)) as Hf'
    by (intros x' y' Hx'; apply Hf; by right).
  specialize (IH Hf').
  destruct (decide (x ≠ e)) as [Hx|Hx].
  - rewrite filter_cons_True by done. rewrite !omap_cons, IH.
    destruct (f x) as [y|] eqn:Hfx; [|done].
    rewrite filter_cons_True; [done|].
    apply (Hf x y); [by left|done|done].
  - rewrite filter_cons_False by done. rewrite omap_cons, IH.
    destruct (f x) as [y|] eqn:Hfx; [|done].
    rewrite filter_cons_False; [done|].
    intros Hy. apply Hx. apply (Hf x y); [by left|done|done].
Qed.

Lemma omap_agree {A B} (f g : A → option B) (l : list A) :
  (∀ x, x ∈ l → f x = g x) → omap f l = omap g l.
Proof.
  induction l as [|x l IH]; intros Hfg; [done|]. rewrite !omap_cons.
  rewrite (Hfg x) by (by left). rewrite IH; [done|].
  intros y Hy. apply Hfg. by right.
Qed.

Lemma omap_keys_NoDup (f : nat → option (Key * Value)) (l : list nat) :
  NoDup l →
  (∀ x y p q, x ∈ l → y ∈ l → f x = Some p → f y = Some q →
              p.1 = q.1 → x = y) →
  NoDup (omap f l).*1.
Proof.
  induction l as [|x l IH]; intros Hnd Hinj; [apply NoDup_nil_2|].
  apply NoDup_cons in Hnd as [Hx Hnd].
  assert (NoDup (omap f l).*1) as IH'.
  { apply IH; [done|]. intros a b p q Ha Hb. apply Hinj; by right. }
  rewrite omap_cons. destruct (f x) as [p|] eqn:Hfx; [|done].
  rewrite fmap_cons. apply NoDup_cons. split; [|done].
  intros (q & Hpq & Hq)%list_elem_of_fmap.
  apply list_elem_of_omap in Hq as (y & Hy & Hfy).
  assert (x = y) as -> by (apply (Hinj x y p q); [by left|by right|done..]).
  done.
Qed.

Lemma keys_separate x e enx en l m :
  wf m → ll (self m) = Some l → x ∈ l → e ∈ l →
  elems m !! x = Some enx → elems m !! e = Some en →
  x ≠ e ↔ key enx ≠ key en.
Proof.
  unfold wf. intros Hwf Hl Hx He Henx Hen. rewrite Hl in Hwf.
  destruct (cache (self m)) as [mp|]; [|done].
  destruct Hwf as (_ & Hall & _).
  destruct (Hall x Hx) as (enx' & Henx' & Hmx).
  destruct (Hall e He) as (en' & Hen' & Hme).
  assert (enx' = enx) as -> by congruence.
  assert (en' = en) as -> by congruence.
  split.
  - intros Hne Heq. rewrite Heq in Hmx. congruence.
  - intros Hne ->. congruence.
Qed.

Lemma contents_keys_NoDup m : wf m → NoDup (contents m).*1.
Proof.
  intros Hwf. unfold contents.
  destruct (ll (self m)) as [l|] eqn:Hll; [|apply NoDup_nil_2].
  apply omap_keys_NoDup.
  - unfold wf in Hwf. rewrite Hll in Hwf.
    destruct (cache (self m)); [|done]. by destruct Hwf.
  - intros x y p q Hx Hy Hp Hq Hpq.
    destruct (elems m !! x) as [enx|] eqn:Henx; [|done].
    destruct (elems m !! y) as [eny|] eqn:Heny; [|done].
    simpl in *. simplify_eq. destruct (decide (x = y)) as [|Hne]; [done|].
    by apply (keys_separate x y enx eny l m Hwf Hll Hx Hy Henx Heny) in Hne.
Qed.

Lemma contents_length l m :
  wf m → ll (self m) = Some l → length (contents m) = length l.
Proof.
  intros Hwf Hll. unfold contents. rewrite Hll.
  assert (∀ e, e ∈ l → is_Some (elems m !! e)) as Hall
    by (intros e; by apply linked_allocated).
  clear Hll. induction l as [|x l IH]; [done|]. rewrite omap_cons.
  destruct (Hall x) as [en ->]; [by left|]. simpl. f_equal.
  apply IH. intros e He. apply Hall. by right.
Qed.

Lemma contents_evicted e en l m :
  wf m → ll (self m) = Some l → e ∈ l → elems m !! e = Some en →
  contents (evicted e en m) = filter (λ kv, kv.1 ≠ key en) (contents m).
Proof.
  intros Hwf Hll He Hen. unfold contents, evicted; simpl. rewrite Hll; simpl.
  apply omap_Remove. intros x y Hx Hy.
  destruct (elems m !! x) as [enx|] eqn:Henx; [|done].
  simpl in Hy. simplify_eq. simpl.
  by apply (keys_separate x e enx en l m).
Qed.

Lemma contents_back b en l m :
  wf m → ll (self m) = Some l → GoList.Back l = Some b →
  elems m !! b = Some en →
  contents m = contents (evicted b en m) ++ [pair_of en].
Proof.
  intros Hwf Hll Hb Hen. unfold contents, evicted; simpl. rewrite Hll; simpl.
  assert (NoDup l) as Hnd.
  { unfold wf in Hwf. rewrite Hll in Hwf.
    destruct (cache (self m)); [|done]. by destruct Hwf. }
  rewrite (Back_split b l Hnd Hb) at 1. rewrite omap_app. f_equal.
  rewrite omap_cons. by rewrite Hen.
Qed.

Lemma contents_updated e en en' l m :
  wf m → ll (self m) = Some l → e ∈ l → elems m !! e = Some en →
  contents (updated e en' m)
  = pair_of en' :: filter (λ kv, kv.1 ≠ key en) (contents m).
Proof.
  intros Hwf Hll He Hen.
  rewrite <- (contents_evicted e en l m Hwf Hll He Hen).
  assert (NoDup l) as Hnd.
  { unfold wf in Hwf. rewrite Hll in Hwf.
    destruct (cache (self m)); [|done]. by destruct Hwf. }
  unfold contents, updated, evicted; simpl. rewrite Hll; simpl.
  rewrite MoveToFront_linked by done. rewrite omap_cons.
  rewrite lookup_insert_eq; simpl. f_equal.
  apply omap_agree. intros x [_ Hx]%Remove_elem_of.
  by rewrite lookup_insert_ne.
Qed.

Lemma contents_pushed k v l m :
  wf m → ll (self m) = Some l →
  contents (pushed k v m) = (k, v) :: contents m.
Proof.
  intros Hwf Hll. pose proof (fresh_unlinked l m Hwf Hll) as Hfr.
  unfold contents, pushed; simpl. rewrite Hll; simpl.
  rewrite lookup_insert_eq; simpl. f_equal.
  apply (omap_agree _ (λ e, pair_of <$> elems m !! e)). intros x Hx. rewrite lookup_insert_ne; [done|].
  intros <-. done.
Qed.

(** ** Presence of a key *)

Lemma wf_both m :
  wf m →
  (cache (self m) = None ∧ ll (self m) = None) ∨
  (∃ mp l, cache (self m) = Some mp ∧ ll (self m) = Some l).
Proof.
  unfold wf. destruct (ll (self m)) as [l|], (cache (self m)) as [mp|];
    try done; [right; eauto | left; eauto].
Qed.

Lemma indexed_linked k e mp l m :
  wf m → cache (self m) = Some mp → ll (self m) = Some l →
  mp !! k = Some e →
  e ∈ l ∧ ∃ en, elems m !! e = Some en ∧ key en = k.
Proof.
  unfold wf. intros Hwf Hc Hl Hk. rewrite Hl, Hc in Hwf.
  destruct Hwf as (_ & _ & Hm). by apply Hm.
Qed.

Lemma stored_nil k m : cache (self m) = None → stored k m = None.
Proof. unfold stored. by intros ->. Qed.

Lemma stored_miss k mp m :
  cache (self m) = Some mp → mp !! k = None → stored k m = None.
Proof. unfold stored. intros -> Hk; simpl. by rewrite Hk. Qed.

Lemma stored_hit k e en mp m :
  cache (self m) = Some mp → mp !! k = Some e → elems m !! e = Some en →
  stored k m = Some (value en).
Proof.
  unfold stored. intros -> Hk Hen; simpl. rewrite Hk; simpl. by rewrite Hen.
Qed.

Lemma stored_Some_inv k v m :
  wf m → stored k m = Some v →
  ∃ mp l e en,
    cache (self m) = Some mp ∧ ll (self m) = Some l ∧ mp !! k = Some e ∧
    e ∈ l ∧ elems m !! e = Some en ∧ en = mk_entry k v.
Proof.
  intros Hwf Hs. destruct (wf_both m Hwf) as [[Hc _]|(mp & l & Hc & Hl)].
  - by rewrite (stored_nil k m Hc) in Hs.
  - destruct (mp !! k) as [e|] eqn:Hk;
      [|by rewrite (stored_miss k mp m Hc Hk) in Hs].
    destruct (indexed_linked k e mp l m Hwf Hc Hl Hk) as (He & en & Hen & Hkey).
    rewrite (stored_hit k e en mp m Hc Hk Hen) in Hs.
    exists mp, l, e, en. repeat split; try done.
    destruct en as [k' v']; simpl in *. congruence.
Qed.

Lemma stored_None_inv k m :
  wf m → stored k m = None →
  (cache (self m) = None ∧ ll (self m) = None) ∨
  (∃ mp l, cache (self m) = Some mp ∧ ll (self m) = Some l ∧ mp !! k = None).
Proof.
  intros Hwf Hs. destruct (wf_both m Hwf) as [?|(mp & l & Hc & Hl)]; [by left|].
  right. exists mp, l. repeat split; try done.
  destruct (mp !! k) as [e|] eqn:Hk; [|done].
  destruct (indexed_linked k e mp l m Hwf Hc Hl Hk) as (He & en & Hen & Hkey).
  by rewrite (stored_hit k e en mp m Hc Hk Hen) in Hs.
Qed.

Lemma stored_contents k v m :
  wf m → stored k m = Some v ↔ (k, v) ∈ contents m.
Proof.
  intros Hwf. split.
  - intros (mp & l & e & en & Hc & Hl & Hk & He & Hen & ->)%stored_Some_inv;
      [|done].
    unfold contents. rewrite Hl. apply list_elem_of_omap. exists e.
    split; [done|]. by rewrite Hen.
  - unfold contents. destruct (wf_both m Hwf) as [[Hc Hl]|(mp & l & Hc & Hl)];
      rewrite Hl; [by intros ?%elem_of_nil|].
    intros (e & He & Hf)%list_elem_of_omap.
    destruct (elems m !! e) as [en|] eqn:Hen; [|done]. simpl in Hf.
    unfold wf in Hwf. rewrite Hc, Hl in Hwf. destruct Hwf as (_ & Hall & _).
    destruct (Hall e He) as (en' & Hen' & Hk).
    assert (en' = en) as -> by congruence.
    destruct en as [k' v']; unfold pair_of in Hf; simpl in *. simplify_eq.
    by rewrite (stored_hit k e (mk_entry k v) mp m Hc Hk Hen).
Qed.

Lemma stored_None_contents k m :
  wf m → stored k m = None ↔ k ∉ (contents m).*1.
Proof.
  intros Hwf. split.
  - intros Hs ([k' v] & Hk & Hin)%list_elem_of_fmap. simpl in Hk; subst k'.
    apply stored_contents in Hin; [|done]. congruence.
  - intros Hk. destruct (stored k m) as [v|] eqn:Hs; [|done].
    exfalso. apply Hk. apply list_elem_of_fmap. exists (k, v).
    split; [done|]. by apply stored_contents.
Qed.

(** ** The functions on memories that satisfy the invariant *)

Lemma Len_spec m : wf m → Len m = Some (Z.of_nat (length (contents m)), m).
Proof.
  intros Hwf. destruct (wf_both m Hwf) as [[Hc Hl]|(mp & l & Hc & Hl)].
  - rewrite (Len_nil m Hc). unfold contents. by rewrite Hl.
  - rewrite (Len_list mp l m Hc Hl), (contents_length l m Hwf Hl). done.
Qed.

Lemma Get_present k v m :
  wf m → stored k m = Some v →
  ∃ e l, ll (self m) = Some l ∧ e ∈ l ∧
         elems m !! e = Some (mk_entry k v) ∧
         Get k m = Some (Some v, updated e (mk_entry k v) m).
Proof.
  intros Hwf (mp & l & e & en & Hc & Hl & Hk & He & Hen & ->)%stored_Some_inv;
    [|done].
  exists e, l. repeat split; try done.
  by rewrite (Get_hit k mp e l _ m Hc Hk Hl Hen).
Qed.

Lemma Get_absent k m : wf m → stored k m = None → Get k m = Some (None, m).
Proof.
  intros Hwf [[Hc _]|(mp & l & Hc & _ & Hk)]%stored_None_inv; [| |done].
  - by apply Get_nil.
  - by apply (Get_miss k mp).
Qed.

Lemma Remove_present k v m :
  wf m → stored k m = Some v →
  ∃ e l, ll (self m) = Some l ∧ e ∈ l ∧
         elems m !! e = Some (mk_entry k v) ∧
         Remove k m = Some (tt, evicted e (mk_entry k v) m).
Proof.
  intros Hwf (mp & l & e & en & Hc & Hl & Hk & He & Hen & ->)%stored_Some_inv;
    [|done].
  exists e, l. repeat split; try done.
  by rewrite (Remove_hit k mp e l _ m Hc Hk Hl Hen).
Qed.

Lemma Remove_absent k m :
  wf m → stored k m = None → Remove k m = Some (tt, m).
Proof.
  intros Hwf [[Hc _]|(mp & l & Hc & _ & Hk)]%stored_None_inv; [| |done].
  - by apply Remove_nil.
  - by apply (Remove_miss k mp).
Qed.

Lemma Add_present k v v0 m :
  wf m → stored k m = Some v0 →
  ∃ e l, ll (self m) = Some l ∧ e ∈ l ∧
         elems m !! e = Some (mk_entry k v0) ∧
         Add k v m = Some (tt, updated e (mk_entry k v) m).
Proof.
  intros Hwf (mp & l & e & en & Hc & Hl & Hk & He & Hen & ->)%stored_Some_inv;
    [|done].
  exists e, l. repeat split; try done.
  by rewrite (Add_hit k v mp e l _ m Hc Hk Hl Hen).
Qed.

Lemma RemoveOldest_spec m :
  wf m →
  match last (contents m) with
  | None => contents m = [] ∧ RemoveOldest m = Some (tt, m)
  | Some old =>
      ∃ b l, ll (self m) = Some l ∧ b ∈ l ∧ GoList.Back l = Some b ∧
             elems m !! b = Some (mk_entry old.1 old.2) ∧
             RemoveOldest m = Some (tt, evicted b (mk_entry old.1 old.2) m)
  end.
Proof.
  intros Hwf. destruct (wf_both m Hwf) as [[Hc Hl]|(mp & l & Hc & Hl)].
  - unfold contents. rewrite Hl. simpl. split; [done|].
    by apply RemoveOldest_nil.
  - destruct (GoList.Back l) as [b|] eqn:Hb.
    + assert (b ∈ l) as Hin by (by apply last_Some_elem_of).
      destruct (linked_allocated b l m Hwf Hl Hin) as [en Hen].
      rewrite (contents_back b en l m Hwf Hl Hb Hen), last_snoc.
      exists b, l. destruct en as [k v]; simpl.
      repeat split; try done.
      by apply (RemoveOldest_back mp l).
    + assert (l = []) as ->.
      { destruct l as [|x l]; [done|].
        assert (is_Some (last (x :: l))) as [? Hs]
          by (by apply last_is_Some).
        unfold GoList.Back in Hb. congruence. }
      unfold contents. rewrite Hl. simpl. split; [done|].
      by apply (RemoveOldest_empty mp []).
Qed.

Lemma Add_miss_spec k v mp l m :
  wf m → cache (self m) = Some mp → ll (self m) = Some l → mp !! k = None →
  ∃ m', Add k v m = Some (tt, m') ∧ wf m' ∧
        MaxEntries (self m') = MaxEntries (self m) ∧
        OnEvicted (self m') = OnEvicted (self m) ∧
        cache (self m') ≠ None ∧
        if over_capacity m
        then ∃ old, (k, v) :: contents m = contents m' ++ [old] ∧
                    calls m' = calls m
                               ++ (if OnEvicted (self m) then [old] else [])
        else contents m' = (k, v) :: contents m ∧ calls m' = calls m.
Proof.
  intros Hwf Hc Hl Hk. rewrite (Add_miss k v mp l m Hc Hk Hl).
  unfold over_capacity, GoList.Len.
  rewrite (contents_length l m Hwf Hl).
  pose proof (wf_pushed k v mp m Hwf Hc Hk) as Hwf1.
  pose proof (contents_pushed k v l m Hwf Hl) as Hc1.
  assert (cache (self (pushed k v m)) ≠ None) as Hne
    by (unfold pushed; simpl; by rewrite Hc).
  destruct (bool_decide _ && bool_decide _).
  - pose proof (RemoveOldest_spec (pushed k v m) Hwf1) as Hro.
    destruct (last (contents (pushed k v m))) as [old|] eqn:Hlast.
    + destruct Hro as (b & l1 & Hl1 & Hb & Hback & Hen & ->).
      eexists. split; [done|].
      split; [by apply (wf_evicted b _ l1)|].
      split; [done|]. split; [done|].
      split; [unfold evicted, pushed; simpl; by rewrite Hc|].
      destruct old as [ko vo]. exists (ko, vo). split; [|done].
      rewrite <- Hc1.
      by rewrite (contents_back b _ l1 _ Hwf1 Hl1 Hback Hen) at 1.
    + destruct Hro as [Hnil _]. rewrite Hc1 in Hnil. done.
  - eexists. split; [done|]. by repeat split.
Qed.

Lemma Add_spec k v m :
  wf m →
  ∃ m', Add k v m = Some (tt, m') ∧ wf m' ∧
        MaxEntries (self m') = MaxEntries (self m) ∧
        OnEvicted (self m') = OnEvicted (self m) ∧
        cache (self m') ≠ None ∧
        match stored k m with
        | Some _ =>
            contents m' = (k, v) :: filter (λ kv, kv.1 ≠ k) (contents m) ∧
            calls m' = calls m
        | None =>
            if over_capacity m
            then ∃ old, (k, v) :: contents m = contents m' ++ [old] ∧
                        calls m' = calls m
                                   ++ (if OnEvicted (self m) then [old] else [])
            else contents m' = (k, v) :: contents m ∧ calls m' = calls m
        end.
Proof.
  intros Hwf. destruct (stored k m) as [v0|] eqn:Hs.
  - destruct (Add_present k v v0 m Hwf Hs) as (e & l & Hl & He & Hen & ->).
    eexists. split; [done|].
    split; [by apply (wf_updated e (mk_entry k v0) _ l)|].
    split; [done|]. split; [done|]. split.
    + unfold updated; simpl. intros Hc. by rewrite (stored_nil k m Hc) in Hs.
    + split; [|done].
      by rewrite (contents_updated e (mk_entry k v0) _ l m Hwf Hl He Hen).
  - destruct (stored_None_inv k m Hwf Hs) as [[Hc Hl]|(mp & l & Hc & Hl & Hk)].
    + rewrite (Add_nil k v m Hc).
      pose proof (wf_initialised m Hc) as Hwf0.
      destruct (Add_miss_spec k v ∅ [] _ Hwf0 eq_refl eq_refl
                  (lookup_empty k)) as (m' & -> & Hwf' & Hmx & Hcb & Hne & Hpost).
      exists m'. split; [done|]. split; [done|]. split; [done|].
      split; [done|]. split; [done|].
      unfold over_capacity, contents in *; simpl in *. by rewrite Hl.
    + by apply (Add_miss_spec k v mp l).
Qed.

(** *** [Clear] *)

Lemma Clear_loop_run ord c el cs :
  (∀ p, p ∈ ord → is_Some (el !! p.2)) →
  Clear_loop ord (mk_Mem c el cs)
  = Some (tt, mk_Mem c el (cs ++ omap (λ p, pair_of <$> el !! p.2) ord)).
Proof.
  revert cs. induction ord as [|[k e] ord IH]; intros cs Hall.
  - simpl. unfold ret. by rewrite app_nil_r.
  - destruct (Hall (k, e)) as [en Hen]; [by left|]. simpl in Hen.
    rewrite omap_cons; simpl. rewrite Hen; simpl.
    unfold bind, deref, call_OnEvicted; simpl. rewrite Hen.
    rewrite IH by (intros p Hp; apply Hall; by right).
    by rewrite <- app_assoc.
Qed.

Lemma omap_snd {A B C} (f : B → option C) (l : list (A * B)) :
  omap (λ p, f p.2) l = omap f l.*2.
Proof.
  induction l as [|p l IH]; [done|].
  rewrite fmap_cons, !omap_cons, IH. done.
Qed.

Lemma range_linked mp l m :
  wf m → cache (self m) = Some mp → ll (self m) = Some l →
  (map_to_list mp).*2 ≡ₚ l.
Proof.
  intros Hwf Hc Hl. apply NoDup_Permutation.
  - apply NoDup_fmap_2_strong; [|apply NoDup_map_to_list].
    intros [k1 e1] [k2 e2] H1%elem_of_map_to_list H2%elem_of_map_to_list.
    simpl. intros <-.
    destruct (indexed_linked k1 e1 mp l m Hwf Hc Hl H1) as (_ & en1 & Hen1 & <-).
    destruct (indexed_linked k2 e1 mp l m Hwf Hc Hl H2) as (_ & en2 & Hen2 & <-).
    congruence.
  - unfold wf in Hwf. rewrite Hc, Hl in Hwf. by destruct Hwf.
  - intros e. rewrite list_elem_of_fmap. split.
    + intros ([k e'] & -> & Hk%elem_of_map_to_list). simpl.
      by destruct (indexed_linked k e' mp l m Hwf Hc Hl Hk).
    + intros He. unfold wf in Hwf. rewrite Hc, Hl in Hwf.
      destruct Hwf as (_ & Hall & _). destruct (Hall e He) as (en & _ & Hk).
      exists (key en, e). split; [done|]. by apply elem_of_map_to_list.
Qed.

Lemma Clear_spec ord m :
  wf m → Clear_order m ord →
  ∃ m', Clear_in ord m = Some (tt, m') ∧
        ll (self m') = None ∧ cache (self m') = None ∧
        MaxEntries (self m') = MaxEntries (self m) ∧
        OnEvicted (self m') = OnEvicted (self m) ∧
        ∃ evs, calls m' = calls m ++ evs ∧
               if OnEvicted (self m) then evs ≡ₚ contents m else evs = [].
Proof.
  intros Hwf Hord. unfold Clear_order, range_cache in Hord.
  destruct (OnEvicted (self m)) eqn:Hcb.
  - assert (∀ p, p ∈ ord → is_Some (elems m !! p.2)) as Hall.
    { intros [k e] Hp. rewrite Hord in Hp.
      destruct (wf_both m Hwf) as [[Hc Hl]|(mp & l & Hc & Hl)];
        rewrite Hc in Hp; [by apply elem_of_nil in Hp|].
      apply elem_of_map_to_list in Hp. simpl.
      destruct (indexed_linked k e mp l m Hwf Hc Hl Hp) as (_ & en & -> & _).
      by eexists. }
    assert (omap (λ p, pair_of <$> elems m !! p.2) ord ≡ₚ contents m) as Hev.
    { rewrite (omap_snd (λ e, pair_of <$> elems m !! e)). unfold contents.
      destruct (wf_both m Hwf) as [[Hc Hl]|(mp & l & Hc & Hl)];
        rewrite Hc in Hord; rewrite Hl.
      - apply Permutation_nil_r in Hord. by subst.
      - by rewrite Hord, (range_linked mp l m Hwf Hc Hl). }
    destruct m as [[mx cb ol omp] el cs]; simpl in *. subst cb.
    unfold Clear_in, bind, load, store_ll, store_cache; simpl.
    rewrite Clear_loop_run by done. simpl.
    eexists. split; [done|]. simpl. repeat split. eauto.
  - destruct m as [[mx cb ol omp] el cs]; simpl in *. subst cb.
    eexists. split; [done|]. simpl. repeat split.
    exists []. by rewrite app_nil_r.
Qed.

(** ** Every reachable memory satisfies the invariant *)

Lemma bind_Some {A B} (c : M A) (f : A → M B) a m m' :
  c m = Some (a, m') → bind c f m = f a m'.
Proof. unfold bind. by intros ->. Qed.

Lemma step_wf m m' : wf m → step m m' → wf m'.
Proof.
  intros Hwf Hstep. destruct Hstep as
    [k v m m' Hr|k r m m' Hr|k m m' Hr|m m' Hr|n m m' Hr|ord m m' Hord Hr|n m|b m].
  - destruct (Add_spec k v m Hwf) as (m1 & Hm1 & Hwf1 & _). congruence.
  - destruct (stored k m) as [v|] eqn:Hs.
    + destruct (Get_present k v m Hwf Hs) as (e & l & Hl & He & Hen & Hg).
      rewrite Hg in Hr. simplify_eq. by apply (wf_updated e (mk_entry k v) _ l).
    + rewrite (Get_absent k m Hwf Hs) in Hr. by simplify_eq.
  - destruct (stored k m) as [v|] eqn:Hs.
    + destruct (Remove_present k v m Hwf Hs) as (e & l & Hl & He & Hen & Hg).
      rewrite Hg in Hr. simplify_eq. by apply (wf_evicted e _ l).
    + rewrite (Remove_absent k m Hwf Hs) in Hr. by simplify_eq.
  - pose proof (RemoveOldest_spec m Hwf) as Hro.
    destruct (last (contents m)) as [old|].
    + destruct Hro as (b & l & Hl & Hb & _ & Hen & Hg).
      rewrite Hg in Hr. simplify_eq. by apply (wf_evicted b _ l).
    + destruct Hro as [_ Hg]. rewrite Hg in Hr. by simplify_eq.
  - rewrite (Len_spec m Hwf) in Hr. by simplify_eq.
  - destruct (Clear_spec ord m Hwf Hord) as (m1 & Hm1 & Hl & Hc & _).
    assert (m1 = m') as <- by congruence. unfold wf. by rewrite Hl, Hc.
  - by apply wf_fields.
  - by apply wf_fields.
Qed.

Lemma reachable_wf m : reachable m → wf m.
Proof.
  induction 1 as [n| |m m' _ IH Hstep].
  - apply wf_New.
  - apply wf_zero.
  - by apply (step_wf m).
Qed.

(** ** Lengths *)

Lemma Remove_length e (l : list nat) :
  NoDup l → e ∈ l → S (length (GoList.Remove e l)) = length l.
Proof.
  induction l as [|x l IH]; intros Hnd He; [by apply elem_of_nil in He|].
  apply NoDup_cons in Hnd as [Hx Hnd]. unfold GoList.Remove in *.
  destruct (decide (x = e)) as [->|Hne].
  - rewrite filter_cons_False by (intros ?; done).
    fold (GoList.Remove e l). by rewrite Remove_unlinked.
  - rewrite filter_cons_True by done. simpl. f_equal. apply IH; [done|].
    apply elem_of_cons in He as [->|He]; done.
Qed.

Lemma updated_length e en en' l m :
  wf m → ll (self m) = Some l → e ∈ l → elems m !! e = Some en →
  key en' = key en →
  length (contents (updated e en' m)) = length (contents m).
Proof.
  intros Hwf Hl He Hen Hkey.
  pose proof (wf_updated e en en' l m Hwf Hl He Hen Hkey) as Hwf'.
  assert (NoDup l) as Hnd.
  { unfold wf in Hwf. rewrite Hl in Hwf.
    destruct (cache (self m)); [|done]. by destruct Hwf. }
  rewrite (contents_length l m Hwf Hl).
  rewrite (contents_length (GoList.MoveToFront e l) _ Hwf')
    by (unfold updated; simpl; by rewrite Hl).
  rewrite MoveToFront_linked by done. simpl. by apply Remove_length.
Qed.

Lemma Add_keeps_bound k v c m m' :
  wf m → MaxEntries (self m) = c → c ≠ 0 →
  Z.of_nat (length (contents m)) ≤ c →
  Add k v m = Some (tt, m') →
  Z.of_nat (length (contents m')) ≤ c.
Proof.
  intros Hwf Hmx Hc Hlen Hadd.
  destruct (Add_spec k v m Hwf) as (m1 & Hm1 & _ & _ & _ & _ & Hpost).
  assert (m1 = m') as -> by congruence.
  destruct (stored k m) as [v0|] eqn:Hs.
  - destruct Hpost as [-> _]. simpl.
    assert (length (filter (λ kv : Key * Value, kv.1 ≠ k) (contents m))
            < length (contents m))%nat; [|lia].
    apply (length_filter_lt _ _ (k, v0)); [by apply stored_contents|].
    simpl. by intros ?.
  - unfold over_capacity in Hpost. rewrite Hmx in Hpost.
    rewrite (bool_decide_eq_true_2 (c ≠ 0) Hc) in Hpost. simpl in Hpost.
    destruct (bool_decide (Z.of_nat (length (contents m)) + 1 > c)) eqn:Hgt.
    + destruct Hpost as (old & Heq & _).
      apply (f_equal length) in Heq. rewrite length_app in Heq.
      simpl in Heq. lia.
    + destruct Hpost as [-> _]. apply bool_decide_eq_false in Hgt.
      simpl. lia.
Qed.

Lemma Add_each_bound c kvs :
  ∀ m, wf m → MaxEntries (self m) = c → c ≠ 0 →
       Z.of_nat (length (contents m)) ≤ c →
       ∃ ns m', Add_each kvs m = Some (ns, m') ∧
                length ns = length kvs ∧ Forall (λ n, n ≤ c) ns.
Proof.
  induction kvs as [|[k v] kvs IH]; intros m Hwf Hmx Hc Hlen.
  - exists [], m. repeat split. apply Forall_nil_2.
  - destruct (Add_spec k v m Hwf) as (m1 & Hm1 & Hwf1 & Hmx1 & _).
    pose proof (Add_keeps_bound k v c m m1 Hwf Hmx Hc Hlen Hm1) as Hlen1.
    rewrite Hmx in Hmx1.
    destruct (IH m1 Hwf1 Hmx1 Hc Hlen1) as (ns & m' & Hrun & Hns & Hall).
    exists (Z.of_nat (length (contents m1)) :: ns), m'.
    split; [|split; [simpl; by rewrite Hns|by apply Forall_cons]].
    cbn [Add_each]. rewrite (bind_Some _ _ _ _ _ Hm1).
    rewrite (bind_Some _ _ _ _ _ (Len_spec m1 Hwf1)).
    by rewrite (bind_Some _ _ _ _ _ Hrun).
Qed.

Lemma two_entries_reachable a b va vb : reachable (two_entries a b va vb).
Proof.
  unfold two_entries, Add_Add.
  set (m0 := on_self (with_OnEvicted true) (New 2)).
  assert (reachable m0) as Hr0
    by (apply (reachable_step (New 2)); [apply reachable_New|apply step_OnEvicted]).
  destruct (Add_spec a va m0 (reachable_wf m0 Hr0)) as (m1 & Hm1 & Hwf1 & _).
  destruct (Add_spec b vb m1 Hwf1) as (m2 & Hm2 & _).
  rewrite (bind_Some _ _ _ _ _ Hm1), Hm2.
  apply (reachable_step m1); [|by apply (step_Add b vb)].
  apply (reachable_step m0); [done|by apply (step_Add a va)].
Qed.

(** ** The claims *)

(** C1.  On a cache made by [New c] with [c > 0] (with or without an
    eviction callback), every sequence of [Add] calls runs to the end and the
    [Len] observed right after each [Add] returns is at most [c]. *)
Theorem C1_capacity_bound (c : Z) (cb : bool) (kvs : list (Key * Value)) :
  0 < c →
  ∃ ns m, Add_each kvs (on_self (with_OnEvicted cb) (New c)) = Some (ns, m) ∧
          length ns = length kvs ∧ Forall (λ n, n ≤ c) ns.
Proof.
  intros Hc. apply Add_each_bound.
  - apply wf_fields; [done..|apply wf_New].
  - done.
  - lia.
  - simpl. lia.
Qed.

Lemma Add_front k v m m' :
  wf m → Add k v m = Some (tt, m') →
  contents m' = [] ∨ ∃ rest, contents m' = (k, v) :: rest.
Proof.
  intros Hwf Hadd.
  destruct (Add_spec k v m Hwf) as (m1 & Hm1 & _ & _ & _ & _ & Hpost).
  assert (m1 = m') as -> by congruence.
  destruct (stored k m) as [v0|].
  - destruct Hpost as [-> _]. right. by eexists.
  - destruct (over_capacity m).
    + destruct Hpost as (old & Heq & _).
      destruct (contents m') as [|x rest]; [by left|right].
      simpl in Heq. exists rest. congruence.
    + destruct Hpost as [-> _]. right. by eexists.
Qed.

(** C3.  In every reachable state, [Add k v] followed by [RemoveOldest]
    both return, and if the cache holds more than one entry after the [Add]
    then the back of the recency list is not [k] and [k] is still stored,
    with value [v], after the [RemoveOldest]. *)
Theorem C3_recency_on_write k v m :
  reachable m →
  ∃ m1 m2 n,
    Add k v m = Some (tt, m1) ∧ Len m1 = Some (n, m1) ∧
    RemoveOldest m1 = Some (tt, m2) ∧
    (1 < n →
     (∃ old, last (contents m1) = Some old ∧ old.1 ≠ k) ∧
     stored k m2 = Some v).
Proof.
  intros Hwf%reachable_wf.
  destruct (Add_spec k v m Hwf) as (m1 & Hm1 & Hwf1 & _).
  pose proof (Add_front k v m m1 Hwf Hm1) as Hfront.
  pose proof (contents_keys_NoDup m1 Hwf1) as Hnd.
  pose proof (RemoveOldest_spec m1 Hwf1) as Hro.
  destruct (last (contents m1)) as [old|] eqn:Hlast.
  - destruct Hro as (b & l & Hl & Hb & Hback & Hen & Hm2).
    exists m1, (evicted b (mk_entry old.1 old.2) m1), (Z.of_nat (length (contents m1))).
    split; [done|]. split; [by apply Len_spec|]. split; [done|].
    intros Hn. destruct Hfront as [Hnil|[rest Hrest]];
      [rewrite Hnil in Hn; simpl in Hn; lia|].
    pose proof Hlast as Hlast1. rewrite Hrest in Hn, Hnd, Hlast.
    destruct rest as [|y rest]; [simpl in Hn; lia|].
    rewrite last_cons_cons in Hlast.
    rewrite fmap_cons in Hnd. apply NoDup_cons in Hnd as [Hk _].
    assert (old.1 ≠ k) as Hne.
    { intros Heq. apply Hk. apply list_elem_of_fmap.
      exists old. split; [by simpl|]. by apply last_Some_elem_of. }
    split; [exists old; by split|].
    apply stored_contents; [by apply (wf_evicted b _ l)|].
    rewrite (contents_evicted b _ l m1 Hwf1 Hl Hb Hen). simpl.
    apply list_elem_of_filter. split; [simpl; congruence|].
    rewrite Hrest. by left.
  - destruct Hro as [Hnil Hm2].
    exists m1, m1, (Z.of_nat (length (contents m1))).
    split; [done|]. split; [by apply Len_spec|]. split; [done|].
    rewrite Hnil. simpl. lia.
Qed.

(** C4.  In every reachable state no two nodes of the recency list carry
    the same key, the index pairs are exactly the linked nodes under their
    own keys, and [Add] of a stored key allocates no node and leaves the
    index and the number of entries as they were: the entry of [k] now holds
    the new value and is at the front. *)
Theorem C4_unique_entry m :
  reachable m →
  NoDup (contents m).*1 ∧
  (∀ mp l, cache (self m) = Some mp → ll (self m) = Some l →
     NoDup l ∧
     ∀ k e, mp !! k = Some e ↔ e ∈ l ∧ key <$> elems m !! e = Some k) ∧
  (∀ k v v0, stored k m = Some v0 →
     ∃ m', Add k v m = Some (tt, m') ∧
           cache (self m') = cache (self m) ∧
           dom (elems m') = dom (elems m) ∧
           length (contents m') = length (contents m) ∧
           contents m' = (k, v) :: filter (λ kv, kv.1 ≠ k) (contents m) ∧
           stored k m' = Some v).
Proof.
  intros Hwf%reachable_wf. split; [by apply contents_keys_NoDup|]. split.
  - intros mp l Hc Hl. pose proof Hwf as Hwf'. unfold wf in Hwf'.
    rewrite Hc, Hl in Hwf'. destruct Hwf' as (Hnd & Hall & Hidx).
    split; [done|]. intros k e. split.
    + intros Hk. destruct (Hidx k e Hk) as (He & en & Hen & Hkey).
      split; [done|]. rewrite Hen. simpl. by rewrite Hkey.
    + intros [He Hkey]. destruct (Hall e He) as (en & Hen & Hk).
      rewrite Hen in Hkey. simpl in Hkey. congruence.
  - intros k v v0 Hs.
    destruct (Add_present k v v0 m Hwf Hs) as (e & l & Hl & He & Hen & Hadd).
    pose proof (wf_updated e _ (mk_entry k v) l m Hwf Hl He Hen eq_refl) as Hwf'.
    pose proof (contents_updated e _ (mk_entry k v) l m Hwf Hl He Hen) as Hc'.
    exists (updated e (mk_entry k v) m). split; [done|]. split; [done|].
    split; [|split; [|split; [done|]]].
    + unfold updated; simpl. rewrite dom_insert_L.
      apply subseteq_union_1_L, singleton_subseteq_l, elem_of_dom.
      by eexists.
    + by apply (updated_length e (mk_entry k v0) (mk_entry k v) l).
    + apply stored_contents; [done|]. rewrite Hc'. by left.
Qed.

(** C5.  In every reachable state, [Get k] of a stored key returns its
    value with ok = true and moves its entry to the front of the recency
    list, the other entries keeping their order and nothing else changing;
    [Get k] of a key that is not stored returns ok = false and leaves the
    whole memory as it was. *)
Theorem C5_Get k m :
  reachable m →
  (∀ v, stored k m = Some v →
     ∃ m', Get k m = Some (Some v, m') ∧
           contents m' = (k, v) :: filter (λ kv, kv.1 ≠ k) (contents m) ∧
           cache (self m') = cache (self m) ∧ elems m' = elems m ∧
           calls m' = calls m) ∧
  (stored k m = None → Get k m = Some (None, m)).
Proof.
  intros Hwf%reachable_wf. split; [|by apply Get_absent].
  intros v Hs.
  destruct (Get_present k v m Hwf Hs) as (e & l & Hl & He & Hen & Hget).
  exists (updated e (mk_entry k v) m). split; [done|].
  split; [by rewrite (contents_updated e _ _ l m Hwf Hl He Hen)|].
  split; [done|]. split; [|done].
  unfold updated; simpl. by apply insert_id.
Qed.

(** C6.  In every reachable state, [Remove k] of a stored key deletes the
    entry from the index and from the recency list, keeps the other entries
    in order, and calls the eviction callback, when one is set, exactly once,
    with the key and the value of that entry; [Remove k] of a key that is
    not stored returns with the whole memory unchanged, so with the same
    length and entries and no callback call. *)
Theorem C6_Remove k m :
  reachable m →
  (∀ v, stored k m = Some v →
     ∃ m', Remove k m = Some (tt, m') ∧
           cache (self m') = (delete k <$> cache (self m)) ∧
           stored k m' = None ∧
           contents m' = filter (λ kv, kv.1 ≠ k) (contents m) ∧
           (k ∉ (contents m').*1) ∧
           calls m' = calls m ++ (if OnEvicted (self m) then [(k, v)] else [])) ∧
  (stored k m = None → Remove k m = Some (tt, m)).
Proof.
  intros Hwf%reachable_wf. split; [|by apply Remove_absent].
  intros v Hs.
  destruct (Remove_present k v m Hwf Hs) as (e & l & Hl & He & Hen & Hrm).
  pose proof (wf_evicted e _ l m Hwf Hl He Hen) as Hwf'.
  pose proof (contents_evicted e _ l m Hwf Hl He Hen) as Hc'. simpl in Hc'.
  assert (k ∉ (contents (evicted e (mk_entry k v) m)).*1) as Hk.
  { rewrite Hc'. intros ([k' v'] & Heq & [Hne _]%list_elem_of_filter)%list_elem_of_fmap.
    simpl in *. congruence. }
  exists (evicted e (mk_entry k v) m). split; [done|]. split; [done|].
  split; [by apply stored_None_contents|]. by repeat split.
Qed.

(** C7.  In every reachable state and for every order in which the loop of
    [Clear] may visit the map, [Clear] returns; when a callback is set the
    calls it receives are, up to order, exactly the entries held at the time
    of the call, one call per entry, and none otherwise; afterwards the cache
    is empty: [Len] is 0 and [Get] of any key reports absent. *)
Theorem C7_Clear ord m :
  reachable m → Clear_order m ord →
  ∃ m' evs,
    Clear_in ord m = Some (tt, m') ∧
    calls m' = calls m ++ evs ∧
    (if OnEvicted (self m) then evs ≡ₚ contents m else evs = []) ∧
    contents m' = [] ∧ Len m' = Some (0, m') ∧
    ∀ k, Get k m' = Some (None, m').
Proof.
  intros Hwf%reachable_wf Hord.
  destruct (Clear_spec ord m Hwf Hord)
    as (m' & Hrun & Hl & Hc & _ & _ & evs & Hcalls & Hevs).
  exists m', evs. split; [done|]. split; [done|]. split; [done|].
  split; [unfold contents; by rewrite Hl|].
  split; [by apply Len_nil|]. intros k. by apply Get_nil.
Qed.

(** C8.  From [New 1] with a callback set, [Add a va; Add b vb] with
    [a] and [b] different keys returns and the callback has been called
    exactly once, with [(a, va)]. *)
Theorem C8_callback_once (a b : Key) (va vb : Value) :
  a ≠ b →
  ∃ m, Add_Add a b va vb (on_self (with_OnEvicted true) (New 1)) = Some (tt, m) ∧
       calls m = [(a, va)].
Proof.
  intros Hab. set (m0 := on_self (with_OnEvicted true) (New 1)).
  assert (wf m0) as Hwf0 by (apply wf_fields; [done..|apply wf_New]).
  destruct (Add_spec a va m0 Hwf0) as (m1 & Hm1 & Hwf1 & Hmx1 & Hcb1 & _ & Hpost1).
  rewrite (stored_miss a ∅ m0 eq_refl (lookup_empty a)) in Hpost1.
  change (over_capacity m0) with false in Hpost1.
  destruct Hpost1 as [Hc1 Hcalls1]. change (contents m0) with (@nil (Key * Value)) in Hc1.
  destruct (Add_spec b vb m1 Hwf1) as (m2 & Hm2 & _ & _ & _ & _ & Hpost2).
  assert (stored b m1 = None) as Hs.
  { apply stored_None_contents; [done|]. rewrite Hc1.
    intros [Heq|Hin]%elem_of_cons; [by apply Hab|by apply elem_of_nil in Hin]. }
  assert (over_capacity m1 = true) as Hover
    by (unfold over_capacity; by rewrite Hmx1, Hc1).
  rewrite Hs, Hover, Hcb1, Hc1 in Hpost2.
  destruct Hpost2 as (old & Heq & Hcalls2).
  assert (old = (a, va)) as ->.
  { apply (f_equal last) in Heq. rewrite last_snoc in Heq. simpl in Heq.
    congruence. }
  exists m2. split.
  - unfold Add_Add. rewrite (bind_Some _ _ _ _ _ Hm1). done.
  - rewrite Hcalls2, Hcalls1. done.
Qed.

(** C9.  On a memory whose index is nil (the zero value, or a cache after
    [Clear]) every exported function returns: [Get] reports absent, [Len]
    is 0, [Remove], [RemoveOldest] and [Clear] change no entry and call no
    callback, and [Add] does what it does on the same cache with an empty
    list and an empty index, which leaves both non-nil and, for a
    [MaxEntries] that is not negative, holds exactly the added entry. *)
Theorem C9_uninitialised k v m :
  cache (self m) = None →
  Get k m = Some (None, m) ∧
  Len m = Some (0, m) ∧
  Remove k m = Some (tt, m) ∧
  RemoveOldest m = Some (tt, m) ∧
  (∀ ord, Clear_order m ord →
     ∃ m', Clear_in ord m = Some (tt, m') ∧
           cache (self m') = None ∧ calls m' = calls m) ∧
  Add k v m
  = Add k v (on_self (with_ll (Some GoList.New))
               (on_self (with_cache (Some ∅)) m)) ∧
  ∃ m', Add k v m = Some (tt, m') ∧
        (∃ mp l, cache (self m') = Some mp ∧ ll (self m') = Some l) ∧
        (0 ≤ MaxEntries (self m) →
         contents m' = [(k, v)] ∧ stored k m' = Some v ∧ calls m' = calls m).
Proof.
  intros Hc.
  split; [by apply Get_nil|]. split; [by apply Len_nil|].
  split; [by apply Remove_nil|]. split; [by apply RemoveOldest_nil|].
  split.
  { intros ord Hord. unfold Clear_order, range_cache in Hord.
    rewrite Hc in Hord. apply Permutation_nil_r in Hord. subst ord.
    destruct m as [[mx cb ol omp] el cs]. destruct cb; by eexists. }
  split; [by apply Add_nil|].
  rewrite (Add_nil k v m Hc).
  set (m0 := on_self (with_ll (Some GoList.New))
               (on_self (with_cache (Some ∅)) m)).
  pose proof (wf_initialised m Hc) as Hwf0. fold m0 in Hwf0.
  destruct (Add_spec k v m0 Hwf0) as (m' & Hm' & Hwf' & _ & _ & Hne & Hpost).
  exists m'. split; [done|]. split.
  { destruct (wf_both m' Hwf') as [[Hc' _]|?]; done. }
  intros Hmx.
  rewrite (stored_miss k ∅ m0 eq_refl (lookup_empty k)) in Hpost.
  assert (over_capacity m0 = false) as Hover.
  { unfold over_capacity. change (MaxEntries (self m0)) with (MaxEntries (self m)).
    change (contents m0) with (@nil (Key * Value)). simpl.
    destruct (decide (MaxEntries (self m) = 0)) as [->|Hz]; [done|].
    rewrite bool_decide_eq_true_2 by done. simpl.
    apply bool_decide_eq_false. lia. }
  rewrite Hover in Hpost. destruct Hpost as [Hcont Hcalls].
  change (contents m0) with (@nil (Key * Value)) in Hcont.
  split; [done|]. split; [|done].
  apply stored_contents; [done|]. rewrite Hcont. by left.
Qed.

Lemma stored_other k k' v m m' :
  wf m → wf m' →
  contents m' = (k, v) :: filter (λ kv, kv.1 ≠ k) (contents m) →
  k' ≠ k → stored k' m' = stored k' m.
Proof.
  intros Hwf Hwf' Hc Hne. destruct (stored k' m) as [v'|] eqn:Hs.
  - apply stored_contents; [done|]. rewrite Hc. right.
    apply list_elem_of_filter. split; [done|]. by apply stored_contents.
  - apply stored_None_contents; [done|]. rewrite Hc, fmap_cons.
    intros [Heq|Hin]%elem_of_cons; [done|].
    apply list_elem_of_fmap in Hin as ([k'' v''] & Heq & [_ Hin]%list_elem_of_filter).
    simpl in Heq; subst k''. apply stored_contents in Hin; [|done]. congruence.
Qed.

(** C10.  In every reachable state [Add k v] returns, and it evicts
    exactly when [k] was not stored, [MaxEntries] is nonzero and the count
    after the insertion exceeds [MaxEntries]; it then drops one entry, the
    one at the back of the list after the insertion, and a callback that is
    set is called once, with that entry, and is called in no other case.
    [Add] of a stored key evicts nothing, calls nothing, keeps [Len],
    stores the new value under [k] and leaves every other key as it was. *)
Theorem C10_Add_callback k v m :
  reachable m →
  ∃ m' evs n,
    Add k v m = Some (tt, m') ∧ Len m = Some (n, m) ∧
    calls m' = calls m ++ (if OnEvicted (self m) then evs else []) ∧
    (evs ≠ [] ↔
     stored k m = None ∧ MaxEntries (self m) ≠ 0 ∧ n + 1 > MaxEntries (self m)) ∧
    (evs ≠ [] →
     ∃ old, evs = [old] ∧ (k, v) :: contents m = contents m' ++ [old]) ∧
    (evs = [] → stored k m = None → contents m' = (k, v) :: contents m) ∧
    (∀ v0, stored k m = Some v0 →
       evs = [] ∧ Len m' = Some (n, m') ∧ stored k m' = Some v ∧
       ∀ k', k' ≠ k → stored k' m' = stored k' m).
Proof.
  intros Hwf%reachable_wf.
  destruct (Add_spec k v m Hwf) as (m' & Hm' & Hwf' & _ & _ & _ & Hpost).
  pose proof (Len_spec m Hwf) as Hlen.
  assert (∀ cs : list (Key * Value),
            cs = cs ++ (if OnEvicted (self m) then [] else [])) as Hnil
    by (intros cs; destruct (OnEvicted (self m)); by rewrite app_nil_r).
  destruct (stored k m) as [v0|] eqn:Hs.
  - destruct Hpost as [Hcont Hcalls].
    exists m', [], (Z.of_nat (length (contents m))).
    split; [done|]. split; [done|]. split; [by rewrite Hcalls|].
    split; [split; [done|by intros [? _]]|]. split; [done|]. split; [done|].
    intros v1 _. split; [done|].
    destruct (Add_present k v v0 m Hwf Hs) as (e & l & Hl & He & Hen & Hadd).
    assert (m' = updated e (mk_entry k v) m) as Hm by congruence.
    split; [|split].
    + rewrite (Len_spec m' Hwf'). rewrite Hm.
      by rewrite (updated_length e (mk_entry k v0) (mk_entry k v) l m
                    Hwf Hl He Hen eq_refl).
    + apply stored_contents; [done|]. rewrite Hcont. by left.
    + intros k' Hne. by apply (stored_other k k' v).
  - unfold over_capacity in Hpost.
    destruct (bool_decide (MaxEntries (self m) ≠ 0)) eqn:Hmx;
      [destruct (bool_decide (Z.of_nat (length (contents m)) + 1
                              > MaxEntries (self m))) eqn:Hgt|];
      simpl in Hpost.
    + destruct Hpost as (old & Hcont & Hcalls).
      apply bool_decide_eq_true in Hmx, Hgt.
      exists m', [old], (Z.of_nat (length (contents m))).
      split; [done|]. split; [done|]. split; [done|].
      split; [by split|]. split; [intros _; by exists old|]. done.
    + destruct Hpost as [Hcont Hcalls]. apply bool_decide_eq_false in Hgt.
      exists m', [], (Z.of_nat (length (contents m))).
      split; [done|]. split; [done|]. split; [by rewrite Hcalls|].
      split; [split; [done|by intros (_ & _ & ?)]|]. done.
    + destruct Hpost as [Hcont Hcalls]. apply bool_decide_eq_false in Hmx.
      exists m', [], (Z.of_nat (length (contents m))).
      split; [done|]. split; [done|]. split; [by rewrite Hcalls|].
      split; [split; [done|by intros (_ & ? & _)]|]. done.
Qed.

(** ** Further properties of the functions *)

Lemma stored_agree k m m' :
  wf m → wf m' →
  (∀ v, (k, v) ∈ contents m' ↔ (k, v) ∈ contents m) →
  stored k m' = stored k m.
Proof.
  intros Hwf Hwf' Hiff. destruct (stored k m) as [v|] eqn:Hs.
  - apply stored_contents; [done|]. apply Hiff. by apply stored_contents.
  - destruct (stored k m') as [v'|] eqn:Hs'; [|done].
    apply stored_contents in Hs'; [|done]. apply Hiff in Hs'.
    apply stored_contents in Hs'; [|done]. congruence.
Qed.

Lemma RemoveOldest_snoc rest old m :
  wf m → contents m = rest ++ [old] →
  ∃ m', RemoveOldest m = Some (tt, m') ∧ wf m' ∧ contents m' = rest ∧
        calls m' = calls m ++ (if OnEvicted (self m) then [old] else []) ∧
        MaxEntries (self m') = MaxEntries (self m) ∧
        OnEvicted (self m') = OnEvicted (self m).
Proof.
  intros Hwf Hc. pose proof (RemoveOldest_spec m Hwf) as Hro.
  assert (last (contents m) = Some old) as Hlast by (by rewrite Hc, last_snoc).
  rewrite Hlast in Hro. destruct Hro as (b & l & Hl & Hb & Hback & Hen & Hrun).
  pose proof (contents_back b _ l m Hwf Hl Hback Hen) as Hsplit.
  rewrite Hc in Hsplit. apply app_inj_tail in Hsplit as [Hrest _].
  exists (evicted b (mk_entry old.1 old.2) m). split; [done|].
  split; [by apply (wf_evicted b _ l)|]. split; [done|].
  split; [|done]. by destruct old.
Qed.

Lemma range_entries ord m :
  wf m → Clear_order m ord →
  (∀ p, p ∈ ord → ∃ en, elems m !! p.2 = Some en ∧ key en = p.1) ∧
  omap (λ p, pair_of <$> elems m !! p.2) ord ≡ₚ contents m.
Proof.
  intros Hwf Hord. unfold Clear_order, range_cache in Hord. split.
  - intros [k e] Hp. rewrite Hord in Hp.
    destruct (wf_both m Hwf) as [[Hc Hl]|(mp & l & Hc & Hl)];
      rewrite Hc in Hp; [by apply elem_of_nil in Hp|].
    apply elem_of_map_to_list in Hp. simpl.
    by destruct (indexed_linked k e mp l m Hwf Hc Hl Hp) as (_ & en & ? & ?);
      exists en.
  - rewrite (omap_snd (λ e, pair_of <$> elems m !! e)). unfold contents.
    destruct (wf_both m Hwf) as [[Hc Hl]|(mp & l & Hc & Hl)];
      rewrite Hc in Hord; rewrite Hl.
    + apply Permutation_nil_r in Hord. by subst.
    + by rewrite Hord, (range_linked mp l m Hwf Hc Hl).
Qed.

(** The text [String] builds from the entries [es], appended to [s]: one
    line per entry, its key printed in both key positions. *)
Lemma String_loop_run ord s m :
  (∀ p, p ∈ ord → ∃ en, elems m !! p.2 = Some en ∧ key en = p.1) →
  String_loop ord s m
  = Some (foldl (λ acc kv, acc +:+ String_line kv.1 (mk_entry kv.1 kv.2)) s
                (omap (λ p, pair_of <$> elems m !! p.2) ord), m).
Proof.
  revert s. induction ord as [|[k e] ord IH]; intros s Hall; [done|].
  destruct (Hall (k, e)) as (en & Hen & Hkey); [by left|]. simpl in Hen, Hkey.
  rewrite omap_cons. simpl. rewrite Hen. simpl.
  unfold bind, deref. rewrite Hen.
  rewrite IH by (intros p Hp; apply Hall; by right).
  destruct en as [k' v']; simpl in *. by subst k'.
Qed.

(** X1.  In every reachable state [RemoveOldest] on an empty cache returns
    with nothing changed; on a cache whose entries are [rest] followed by
    [old] at the back it removes exactly [old]: the entries left are
    [rest], the key of [old] is no longer stored, [Len] is the length of
    [rest], and a callback that is set is called once, with [old]. *)
Theorem X1_RemoveOldest m :
  reachable m →
  (contents m = [] → RemoveOldest m = Some (tt, m)) ∧
  (∀ rest old, contents m = rest ++ [old] →
     ∃ m', RemoveOldest m = Some (tt, m') ∧
           contents m' = rest ∧ stored old.1 m' = None ∧
           Len m' = Some (Z.of_nat (length rest), m') ∧
           calls m' = calls m ++ (if OnEvicted (self m) then [old] else [])).
Proof.
  intros Hwf%reachable_wf. split.
  - intros Hnil. pose proof (RemoveOldest_spec m Hwf) as Hro.
    rewrite Hnil in Hro. by destruct Hro.
  - intros rest old Hc.
    destruct (RemoveOldest_snoc rest old m Hwf Hc)
      as (m' & Hrun & Hwf' & Hc' & Hcalls & _).
    exists m'. split; [done|]. split; [done|].
    split; [|split; [by rewrite (Len_spec m' Hwf'), Hc'|done]].
    apply stored_None_contents; [done|]. rewrite Hc'.
    pose proof (contents_keys_NoDup m Hwf) as Hnd.
    rewrite Hc, fmap_app in Hnd. apply NoDup_app in Hnd as (_ & Hd & _).
    intros Hin. apply (Hd _ Hin). by left.
Qed.

(** X2.  No exported function panics in a reachable state: [Add], [Get],
    [Remove], [RemoveOldest], [Len], and [Clear] and [String] for every
    order their loop may take, all return. *)
Theorem X2_no_panic m :
  reachable m →
  (∀ k v, is_Some (Add k v m)) ∧
  (∀ k, is_Some (Get k m)) ∧
  (∀ k, is_Some (Remove k m)) ∧
  is_Some (RemoveOldest m) ∧
  is_Some (Len m) ∧
  (∀ ord, Clear_order m ord → is_Some (Clear_in ord m)) ∧
  (∀ ord, Clear_order m ord → is_Some (String_in ord m)).
Proof.
  intros Hwf%reachable_wf.
  split; [intros k v; destruct (Add_spec k v m Hwf) as (m' & -> & _); by eexists|].
  split.
  { intros k. destruct (stored k m) as [v|] eqn:Hs.
    - destruct (Get_present k v m Hwf Hs) as (e & l & _ & _ & _ & ->). by eexists.
    - rewrite (Get_absent k m Hwf Hs). by eexists. }
  split.
  { intros k. destruct (stored k m) as [v|] eqn:Hs.
    - destruct (Remove_present k v m Hwf Hs) as (e & l & _ & _ & _ & ->). by eexists.
    - rewrite (Remove_absent k m Hwf Hs). by eexists. }
  split.
  { pose proof (RemoveOldest_spec m Hwf) as Hro.
    destruct (last (contents m)).
    - destruct Hro as (b & l & _ & _ & _ & _ & ->). by eexists.
    - destruct Hro as [_ ->]. by eexists. }
  split; [rewrite (Len_spec m Hwf); by eexists|].
  split.
  { intros ord Hord. destruct (Clear_spec ord m Hwf Hord) as (m' & -> & _).
    by eexists. }
  intros ord Hord. destruct (range_entries ord m Hwf Hord) as [Hall _].
  unfold String_in. rewrite (String_loop_run ord "" m Hall). by eexists.
Qed.

(** X3.  In every reachable state [String], for every order its loop may
    take, returns without changing the memory (no entry is promoted), and
    its text is one line per entry held, the lines following some
    permutation of the entries, each line printing the same key for the
    index key and for the key of the entry; so it is empty on an empty
    cache. *)
Theorem X3_String ord m :
  reachable m → Clear_order m ord →
  ∃ es, es ≡ₚ contents m ∧
        String_in ord m
        = Some (foldl (λ acc kv, acc +:+ String_line kv.1 (mk_entry kv.1 kv.2))
                      "" es, m).
Proof.
  intros Hwf%reachable_wf Hord.
  destruct (range_entries ord m Hwf Hord) as [Hall Hperm].
  eexists. split; [exact Hperm|]. by apply String_loop_run.
Qed.

(** X4.  In every reachable state the index and the recency list hold the
    same entries: a key is found through the index with value [v] exactly
    when [(k, v)] is an entry of the list, and [Len], which reads the list,
    is the number of keys in the index. *)
Theorem X4_index_matches_list m :
  reachable m →
  (∀ k v, stored k m = Some v ↔ (k, v) ∈ contents m) ∧
  (∀ mp, cache (self m) = Some mp → Len m = Some (Z.of_nat (size mp), m)).
Proof.
  intros Hwf%reachable_wf. split; [intros k v; by apply stored_contents|].
  intros mp Hc. destruct (wf_both m Hwf) as [[Hc' _]|(mp' & l & Hc' & Hl)];
    [congruence|].
  assert (mp' = mp) as -> by congruence.
  rewrite (Len_list mp l m Hc Hl). unfold GoList.Len.
  rewrite <- (range_linked mp l m Hwf Hc Hl), length_fmap, length_map_to_list.
  done.
Qed.

Lemma step_length m m' :
  wf m → step m m' →
  (∃ k v, Add k v m = Some (tt, m')) ∨
  (length (contents m') ≤ length (contents m))%nat.
Proof.
  intros Hwf Hstep. destruct Hstep as
    [k v m m' Hr|k r m m' Hr|k m m' Hr|m m' Hr|n m m' Hr|ord m m' Hord Hr|n m|b m].
  - left. by exists k, v.
  - right. destruct (stored k m) as [v|] eqn:Hs.
    + destruct (Get_present k v m Hwf Hs) as (e & l & Hl & He & Hen & Hg).
      rewrite Hg in Hr. simplify_eq.
      by rewrite (updated_length e (mk_entry k v) (mk_entry k v) l m
                    Hwf Hl He Hen eq_refl).
    + rewrite (Get_absent k m Hwf Hs) in Hr. by simplify_eq.
  - right. destruct (stored k m) as [v|] eqn:Hs.
    + destruct (Remove_present k v m Hwf Hs) as (e & l & Hl & He & Hen & Hg).
      rewrite Hg in Hr. simplify_eq.
      rewrite (contents_evicted e _ l m Hwf Hl He Hen). apply length_filter.
    + rewrite (Remove_absent k m Hwf Hs) in Hr. by simplify_eq.
  - right. pose proof (RemoveOldest_spec m Hwf) as Hro.
    destruct (last (contents m)) as [old|].
    + destruct Hro as (b & l & Hl & Hb & Hback & Hen & Hg).
      rewrite Hg in Hr. simplify_eq.
      rewrite (contents_back b _ l m Hwf Hl Hback Hen).
      rewrite length_app. lia.
    + destruct Hro as [_ Hg]. rewrite Hg in Hr. by simplify_eq.
  - right. rewrite (Len_spec m Hwf) in Hr. by simplify_eq.
  - right. destruct (Clear_spec ord m Hwf Hord) as (m1 & Hm1 & Hl & _).
    assert (m1 = m') as <- by congruence.
    unfold contents at 1. rewrite Hl. simpl. lia.
  - by right.
  - by right.
Qed.

Lemma reachable_at_reachable c m : reachable_at c m → reachable m.
Proof.
  induction 1 as [|m m' _ IH Hstep _]; [apply reachable_New|].
  by apply (reachable_step m).
Qed.

Lemma reachable_at_bound c m :
  0 < c → reachable_at c m →
  MaxEntries (self m) = c ∧ Z.of_nat (length (contents m)) ≤ c.
Proof.
  intros Hc. induction 1 as [|m m' Hr [Hmx IH] Hstep Hmx'].
  - split; [done|]. simpl. lia.
  - split; [done|].
    pose proof (reachable_wf m (reachable_at_reachable c m Hr)) as Hwf.
    destruct (step_length m m' Hwf Hstep) as [(k & v & Hadd)|Hle]; [|lia].
    apply (Add_keeps_bound k v c m m'); [done|done|lia|done|done].
Qed.

(** X5.  The capacity bound holds under every exported function, not
    only [Add]: in a state reached from [New c], [c > 0], by any calls of
    [Add], [Get], [Remove], [RemoveOldest], [Len] and [Clear] and any
    assignment to [OnEvicted], with [MaxEntries] left at [c], [Len] returns
    a count between 0 and [c]. *)
Theorem X5_bound_all_methods c m :
  0 < c → reachable_at c m →
  ∃ n, Len m = Some (n, m) ∧ 0 ≤ n ≤ c.
Proof.
  intros Hc Hr. destruct (reachable_at_bound c m Hc Hr) as [_ Hlen].
  exists (Z.of_nat (length (contents m))). split; [|lia].
  apply Len_spec, reachable_wf, (reachable_at_reachable c), Hr.
Qed.

Lemma stored_other_cons k k' v m m' :
  wf m → wf m' → contents m' = (k, v) :: contents m → k' ≠ k →
  stored k' m' = stored k' m.
Proof.
  intros Hwf Hwf' Hc Hne. apply stored_agree; [done..|].
  intros v'. rewrite Hc, elem_of_cons. split; [|by right].
  intros [Heq|Hin]; [congruence|done].
Qed.

(** X6.  Zero means no limit: in a reachable state with [MaxEntries] 0,
    [Add k v] never evicts and never calls the callback; afterwards [k] is
    stored with [v] and every other key is stored exactly as before. *)
Theorem X6_unlimited k v m :
  reachable m → MaxEntries (self m) = 0 →
  ∃ m', Add k v m = Some (tt, m') ∧ calls m' = calls m ∧
        stored k m' = Some v ∧
        ∀ k', k' ≠ k → stored k' m' = stored k' m.
Proof.
  intros Hwf%reachable_wf Hmx.
  destruct (Add_spec k v m Hwf) as (m' & Hm' & Hwf' & _ & _ & _ & Hpost).
  exists m'. split; [done|].
  destruct (stored k m) as [v0|] eqn:Hs.
  - destruct Hpost as [Hc Hcalls]. split; [done|]. split.
    + apply stored_contents; [done|]. rewrite Hc. by left.
    + intros k' Hne. by apply (stored_other k k' v).
  - unfold over_capacity in Hpost. rewrite Hmx in Hpost. simpl in Hpost.
    destruct Hpost as [Hc Hcalls]. split; [done|]. split.
    + apply stored_contents; [done|]. rewrite Hc. by left.
    + intros k' Hne. by apply (stored_other_cons k k' v).
Qed.

Lemma Add_negative k v m :
  wf m → MaxEntries (self m) < 0 → contents m = [] →
  ∃ m', Add k v m = Some (tt, m') ∧ wf m' ∧ contents m' = [] ∧
        MaxEntries (self m') = MaxEntries (self m) ∧
        OnEvicted (self m') = OnEvicted (self m) ∧
        calls m' = calls m ++ (if OnEvicted (self m) then [(k, v)] else []).
Proof.
  intros Hwf Hmx Hnil.
  destruct (Add_spec k v m Hwf) as (m' & Hm' & Hwf' & Hmx' & Hcb' & _ & Hpost).
  assert (stored k m = None) as Hs.
  { apply stored_None_contents; [done|]. rewrite Hnil. apply not_elem_of_nil. }
  assert (over_capacity m = true) as Hover.
  { unfold over_capacity. rewrite Hnil. simpl.
    rewrite !bool_decide_eq_true_2; [done|lia|lia]. }
  rewrite Hs, Hover, Hnil in Hpost. destruct Hpost as (old & Heq & Hcalls).
  apply (app_inj_tail [] (contents m') (k, v) old) in Heq as [Hc' <-].
  exists m'. by repeat split.
Qed.

Lemma Add_each_negative kvs :
  ∀ m, wf m → MaxEntries (self m) < 0 → contents m = [] →
       ∃ ns m', Add_each kvs m = Some (ns, m') ∧
                Forall (λ n, n = 0) ns ∧ length ns = length kvs ∧
                contents m' = [] ∧
                calls m' = calls m ++ (if OnEvicted (self m) then kvs else []).
Proof.
  induction kvs as [|[k v] kvs IH]; intros m Hwf Hmx Hnil.
  - exists [], m. split; [done|]. split; [apply Forall_nil_2|].
    split; [done|]. split; [done|]. destruct (OnEvicted (self m));
      by rewrite app_nil_r.
  - destruct (Add_negative k v m Hwf Hmx Hnil)
      as (m1 & Hm1 & Hwf1 & Hnil1 & Hmx1 & Hcb1 & Hcalls1).
    rewrite <- Hmx1 in Hmx.
    destruct (IH m1 Hwf1 Hmx Hnil1) as (ns & m' & Hrun & Hall & Hlen & Hnil' & Hcalls').
    exists (0 :: ns), m'. split.
    { cbn [Add_each]. rewrite (bind_Some _ _ _ _ _ Hm1).
      pose proof (Len_spec m1 Hwf1) as HLen. rewrite Hnil1 in HLen.
      rewrite (bind_Some _ _ _ _ _ HLen).
      by rewrite (bind_Some _ _ _ _ _ Hrun). }
    split; [by apply Forall_cons|]. split; [simpl; by rewrite Hlen|].
    split; [done|]. rewrite Hcalls', Hcalls1, Hcb1.
    destruct (OnEvicted (self m)); [by rewrite <- app_assoc|by rewrite !app_nil_r].
Qed.

(** X7.  A negative [MaxEntries] is accepted and makes a cache that holds
    nothing: from [New c] with [c < 0] every [Add] returns with [Len] 0,
    the pair just added being evicted at once, and a callback that is set
    receives every pair added, in the order of the calls. *)
Theorem X7_negative_capacity (c : Z) (cb : bool) (kvs : list (Key * Value)) :
  c < 0 →
  ∃ ns m, Add_each kvs (on_self (with_OnEvicted cb) (New c)) = Some (ns, m) ∧
          Forall (λ n, n = 0) ns ∧ length ns = length kvs ∧
          contents m = [] ∧ calls m = (if cb then kvs else []).
Proof.
  intros Hc.
  apply (Add_each_negative kvs (on_self (with_OnEvicted cb) (New c)));
    [apply wf_fields; [done..|apply wf_New]|done|done].
Qed.

(** X8.  What [Add] stores, [Get] returns: in a reachable state whose
    [MaxEntries] is not negative, or that holds an entry already, [Add k v]
    followed by [Get k] returns [(v, true)]. *)
Theorem X8_Add_then_Get k v m :
  reachable m →
  0 ≤ MaxEntries (self m) ∨ contents m ≠ [] →
  ∃ m1 m2, Add k v m = Some (tt, m1) ∧ Get k m1 = Some (Some v, m2).
Proof.
  intros Hwf%reachable_wf Hok.
  destruct (Add_spec k v m Hwf) as (m1 & Hm1 & Hwf1 & _ & _ & _ & Hpost).
  assert ((k, v) ∈ contents m1) as Hin.
  { destruct (stored k m) as [v0|].
    - destruct Hpost as [-> _]. by left.
    - destruct (over_capacity m) eqn:Hover.
      + destruct Hpost as (old & Heq & _).
        destruct (contents m1) as [|x rest] eqn:Hc1.
        * exfalso. simpl in Heq. injection Heq as _ Hnil.
          unfold over_capacity in Hover. rewrite Hnil in Hover. simpl in Hover.
          apply andb_true_iff in Hover as [Hz Hgt].
          apply bool_decide_eq_true in Hz, Hgt.
          destruct Hok as [Hpos|Hne]; [lia|done].
        * simpl in Heq. injection Heq as <- _. by left.
      + destruct Hpost as [-> _]. by left. }
  apply stored_contents in Hin; [|done].
  destruct (Get_present k v m1 Hwf1 Hin) as (e & l & _ & _ & _ & Hget).
  by exists m1, (updated e (mk_entry k v) m1).
Qed.

(** X9.  [Add] evicts at most one entry and never shrinks the cache: in a
    reachable state [Len] after [Add] is [Len] before or one more.  So when
    [MaxEntries] has been lowered below [Len], [Add] does not bring [Len]
    back under it. *)
Theorem X9_Add_Len k v m :
  reachable m →
  ∃ m' n n',
    Add k v m = Some (tt, m') ∧ Len m = Some (n, m) ∧ Len m' = Some (n', m') ∧
    n ≤ n' ≤ n + 1 ∧
    (MaxEntries (self m) < n → MaxEntries (self m') < n').
Proof.
  intros Hwf%reachable_wf.
  destruct (Add_spec k v m Hwf) as (m' & Hm' & Hwf' & Hmx & _ & _ & Hpost).
  exists m', (Z.of_nat (length (contents m))), (Z.of_nat (length (contents m'))).
  split; [done|]. split; [by apply Len_spec|]. split; [by apply Len_spec|].
  assert (length (contents m) ≤ length (contents m') ≤ length (contents m) + 1)%nat
    as Hlen; [|rewrite Hmx; lia].
  destruct (stored k m) as [v0|] eqn:Hs.
  - destruct (Add_present k v v0 m Hwf Hs) as (e & l & Hl & He & Hen & Hadd).
    assert (m' = updated e (mk_entry k v) m) as -> by congruence.
    rewrite (updated_length e (mk_entry k v0) (mk_entry k v) l m
               Hwf Hl He Hen eq_refl). lia.
  - destruct (over_capacity m).
    + destruct Hpost as (old & Heq & _). apply (f_equal length) in Heq.
      rewrite length_app in Heq. simpl in Heq. lia.
    + destruct Hpost as [-> _]. simpl. lia.
Qed.

Lemma snoc_of_cons {A} (x : A) (l : list A) :
  ∃ init back, x :: l = init ++ [back].
Proof.
  assert (is_Some (last (x :: l))) as [back Hb] by (by apply last_is_Some).
  apply last_Some in Hb as [init Hb]. by exists init, back.
Qed.

Lemma fresh_keys_step k (ks1 ks ks' : list Key) old :
  k :: ks = ks1 ++ [old] → NoDup (ks ++ k :: ks') → NoDup (ks1 ++ ks').
Proof.
  intros Heq Hnd.
  assert (NoDup ((k :: ks) ++ ks')) as Hnd'.
  { simpl. apply NoDup_cons. apply NoDup_app in Hnd as (Hks & Hd & Hk).
    apply NoDup_cons in Hk as [Hk Hks']. split.
    - intros [Hin|Hin]%elem_of_app; [|done]. apply (Hd k Hin). by left.
    - apply NoDup_app. split; [done|]. split; [|done].
      intros x Hx Hx'. apply (Hd x Hx). by right. }
  rewrite Heq, <- app_assoc in Hnd'.
  apply NoDup_app in Hnd' as (H1 & Hd & H2).
  apply NoDup_app. split; [done|]. split.
  - intros x Hx Hx'. apply (Hd x Hx). by right.
  - simpl in H2. by apply NoDup_cons in H2 as [_ ?].
Qed.

Lemma Add_all_fresh kvs :
  ∀ m, wf m → 0 < MaxEntries (self m) →
       Z.of_nat (length (contents m)) ≤ MaxEntries (self m) →
       NoDup ((contents m).*1 ++ kvs.*1) →
       ∃ m' ev,
         Add_all kvs m = Some (tt, m') ∧
         ev ++ reverse (contents m') = reverse (contents m) ++ kvs ∧
         calls m' = calls m ++ (if OnEvicted (self m) then ev else []) ∧
         length (contents m')
         = (Z.to_nat (MaxEntries (self m))
            `min` (length (contents m) + length kvs))%nat.
Proof.
  induction kvs as [|[k v] kvs IH]; intros m Hwf Hmx Hlen Hnd.
  - exists m, []. split; [done|]. split; [by rewrite app_nil_r|].
    split; [destruct (OnEvicted (self m)); by rewrite app_nil_r|].
    simpl. lia.
  - assert (stored k m = None) as Hs.
    { apply stored_None_contents; [done|]. intros Hin.
      apply NoDup_app in Hnd as (_ & Hd & _). apply (Hd k Hin). by left. }
    destruct (Add_spec k v m Hwf) as (m1 & Hm1 & Hwf1 & Hmx1 & Hcb1 & _ & Hpost).
    rewrite Hs in Hpost. unfold over_capacity in Hpost.
    rewrite (bool_decide_eq_true_2 (MaxEntries (self m) ≠ 0)) in Hpost by lia.
    simpl in Hpost.
    destruct (bool_decide (Z.of_nat (length (contents m)) + 1
                           > MaxEntries (self m))) eqn:Hgt.
    + apply bool_decide_eq_true in Hgt.
      destruct Hpost as (old & Heq & Hcalls1).
      assert (length (contents m1) = length (contents m)) as Hlen1.
      { apply (f_equal length) in Heq. rewrite length_app in Heq.
        simpl in Heq. lia. }
      assert (NoDup ((contents m1).*1 ++ kvs.*1)) as Hnd1.
      { apply (fresh_keys_step k _ (contents m).*1 _ old.1); [|done].
        apply (f_equal (fmap fst)) in Heq. by rewrite fmap_app in Heq. }
      destruct (IH m1 Hwf1) as (m' & ev & Hrun & Hev & Hcalls & Hlen');
        [lia|lia|done|].
      exists m', (old :: ev). split.
      { cbn [Add_all]. by rewrite (bind_Some _ _ _ _ _ Hm1). }
      split.
      { apply (f_equal reverse) in Heq. rewrite reverse_cons, reverse_snoc in Heq.
        simpl. rewrite Hev, app_comm_cons, <- Heq, <- app_assoc. done. }
      split.
      { rewrite Hcalls, Hcalls1, Hcb1. destruct (OnEvicted (self m));
          [by rewrite <- app_assoc|by rewrite !app_nil_r]. }
      rewrite Hlen', Hmx1, Hlen1. simpl. lia.
    + apply bool_decide_eq_false in Hgt. destruct Hpost as [Hc1 Hcalls1].
      assert (NoDup ((contents m1).*1 ++ kvs.*1)) as Hnd1.
      { rewrite Hc1. simpl.
        apply NoDup_app in Hnd as (Hks & Hd & Hk).
        apply NoDup_cons in Hk as [Hk Hks']. apply NoDup_cons. split.
        - intros [Hin|Hin]%elem_of_app; [|done]. apply (Hd k Hin). by left.
        - apply NoDup_app. split; [done|]. split; [|done].
          intros x Hx Hx'. apply (Hd x Hx). by right. }
      destruct (IH m1 Hwf1) as (m' & ev & Hrun & Hev & Hcalls & Hlen');
        [lia|rewrite Hc1; simpl; lia|done|].
      exists m', ev. split.
      { cbn [Add_all]. by rewrite (bind_Some _ _ _ _ _ Hm1). }
      split; [by rewrite Hev, Hc1, reverse_cons, <- app_assoc|].
      split; [by rewrite Hcalls, Hcalls1, Hcb1|].
      rewrite Hlen', Hmx1, Hc1. simpl. lia.
Qed.

(** X10.  Without reads the cache evicts in insertion order: after [Add]
    of pairs with different keys to [New c], [c > 0], the pairs added are,
    in order, the evicted ones followed by the entries held from back to
    front; the cache holds the last [min c n] of the [n] pairs, and a
    callback that is set has received exactly the evicted ones, oldest
    first. *)
Theorem X10_insertion_order (c : Z) (cb : bool) (kvs : list (Key * Value)) :
  0 < c → NoDup kvs.*1 →
  ∃ m ev,
    Add_all kvs (on_self (with_OnEvicted cb) (New c)) = Some (tt, m) ∧
    kvs = ev ++ reverse (contents m) ∧
    calls m = (if cb then ev else []) ∧
    length (contents m) = (Z.to_nat c `min` length kvs)%nat.
Proof.
  intros Hc Hnd.
  destruct (Add_all_fresh kvs (on_self (with_OnEvicted cb) (New c)))
    as (m & ev & Hrun & Hev & Hcalls & Hlen).
  - apply wf_fields; [done..|apply wf_New].
  - done.
  - simpl. lia.
  - done.
  - exists m, ev. by repeat split.
Qed.

Lemma front_survives k v y rest m :
  wf m → contents m = (k, v) :: y :: rest →
  ∃ m', RemoveOldest m = Some (tt, m') ∧ stored k m' = Some v.
Proof.
  intros Hwf Hc. destruct (snoc_of_cons y rest) as (init & back & Hsnoc).
  destruct (RemoveOldest_snoc ((k, v) :: init) back m Hwf)
    as (m' & Hrun & Hwf' & Hc' & _); [by rewrite Hc, Hsnoc|].
  exists m'. split; [done|]. apply stored_contents; [done|].
  rewrite Hc'. by left.
Qed.

(** X11.  A read protects like a write: in a reachable state holding
    more than one entry, after [Get k] has found [k], [RemoveOldest]
    removes some other entry and [k] is still stored with its value. *)
Theorem X11_Get_then_RemoveOldest k v n m :
  reachable m → stored k m = Some v → Len m = Some (n, m) → 1 < n →
  ∃ m1 m2, Get k m = Some (Some v, m1) ∧ RemoveOldest m1 = Some (tt, m2) ∧
           stored k m2 = Some v.
Proof.
  intros Hwf%reachable_wf Hs HLen Hn.
  destruct (Get_present k v m Hwf Hs) as (e & l & Hl & He & Hen & Hget).
  pose proof (wf_updated e _ (mk_entry k v) l m Hwf Hl He Hen eq_refl) as Hwf1.
  pose proof (contents_updated e _ (mk_entry k v) l m Hwf Hl He Hen) as Hc1.
  pose proof (updated_length e _ (mk_entry k v) l m Hwf Hl He Hen eq_refl) as Hlen1.
  rewrite (Len_spec m Hwf) in HLen. simplify_eq.
  rewrite Hc1 in Hlen1. simpl in Hc1, Hlen1.
  destruct (filter (λ kv : Key * Value, kv.1 ≠ k) (contents m)) as [|y rest];
    [simpl in Hlen1; lia|].
  destruct (front_survives k v y rest _ Hwf1 Hc1) as (m2 & Hrun & Hs2).
  by exists (updated e (mk_entry k v) m), m2.
Qed.

Lemma filter_keep_all {A} (P : A → Prop) `{∀ x, Decision (P x)} (l : list A) :
  (∀ x, x ∈ l → P x) → filter P l = l.
Proof.
  induction l as [|x l IH]; intros Hall; [done|].
  rewrite filter_cons_True by (apply Hall; by left).
  rewrite IH; [done|]. intros y Hy. apply Hall. by right.
Qed.

Lemma filter_key_snoc k v (l : list (Key * Value)) :
  NoDup (l ++ [(k, v)]).*1 →
  filter (λ kv, kv.1 ≠ k) (l ++ [(k, v)]) = l.
Proof.
  intros Hnd. rewrite fmap_app in Hnd. apply NoDup_app in Hnd as (_ & Hd & _).
  rewrite filter_app, filter_cons_False, filter_nil, app_nil_r
    by (simpl; by intros ?).
  apply filter_keep_all. intros [k' v'] Hin Heq. simpl in Heq. subst k'.
  apply (Hd k); [|by left]. apply list_elem_of_fmap. by exists (k, v').
Qed.

(** X12.  A full cache spares the entry just read: in a reachable state
    that holds [MaxEntries] entries with [(k, v)] at the back and [victim]
    before it, [Get k] followed by [Add] of a key that is not stored
    evicts [victim], not [k]; the list is then the new entry, [(k, v)] and
    the entries that were in front, and a callback that is set is called
    once, with [victim]. *)
Theorem X12_read_protects k v victim front k3 v3 m :
  reachable m →
  contents m = front ++ [victim; (k, v)] →
  MaxEntries (self m) = Z.of_nat (length (contents m)) →
  stored k3 m = None →
  ∃ m1 m2, Get k m = Some (Some v, m1) ∧ Add k3 v3 m1 = Some (tt, m2) ∧
           contents m2 = (k3, v3) :: (k, v) :: front ∧
           calls m2 = calls m ++ (if OnEvicted (self m) then [victim] else []).
Proof.
  intros Hwf%reachable_wf Hc Hmx Hs3.
  assert (stored k m = Some v) as Hs.
  { apply stored_contents; [done|]. rewrite Hc.
    apply elem_of_app. right. right. by left. }
  assert (k3 ≠ k) as Hne by (intros ->; congruence).
  destruct (Get_present k v m Hwf Hs) as (e & l & Hl & He & Hen & Hget).
  pose proof (wf_updated e _ (mk_entry k v) l m Hwf Hl He Hen eq_refl) as Hwf1.
  pose proof (contents_updated e _ (mk_entry k v) l m Hwf Hl He Hen) as Hc1.
  simpl in Hc1.
  assert (filter (λ kv : Key * Value, kv.1 ≠ k) (contents m) = front ++ [victim])
    as Hfilter.
  { pose proof (contents_keys_NoDup m Hwf) as Hnd. rewrite Hc in Hnd |- *.
    replace (front ++ [victim; (k, v)]) with ((front ++ [victim]) ++ [(k, v)])
      in Hnd |- * by (by rewrite <- app_assoc).
    by apply filter_key_snoc. }
  rewrite Hfilter in Hc1.
  set (m1 := updated e (mk_entry k v) m) in Hget, Hwf1, Hc1 |- *.
  assert (stored k3 m1 = None) as Hs1.
  { rewrite <- Hs3. apply (stored_other k k3 v); [done..| |done].
    by rewrite Hc1, Hfilter. }
  destruct (Add_spec k3 v3 m1 Hwf1) as (m2 & Hm2 & _ & _ & _ & _ & Hpost).
  assert (over_capacity m1 = true) as Hover.
  { unfold over_capacity. change (MaxEntries (self m1)) with (MaxEntries (self m)).
    rewrite Hmx, Hc, Hc1. rewrite !length_app. simpl.
    rewrite !length_app. simpl.
    rewrite !bool_decide_eq_true_2; [done|lia|lia]. }
  rewrite Hs1, Hover, Hc1 in Hpost. destruct Hpost as (old & Heq & Hcalls).
  apply (app_inj_tail ((k3, v3) :: (k, v) :: front) (contents m2) victim old)
    in Heq as [Hc2 <-].
  exists m1, m2. by repeat split.
Qed.

Lemma RemoveOldest_n_drains n :
  ∀ m, wf m → length (contents m) = n →
       ∃ m', RemoveOldest_n n m = Some (tt, m') ∧ wf m' ∧ contents m' = [] ∧
             calls m' = calls m ++ (if OnEvicted (self m)
                                    then reverse (contents m) else []).
Proof.
  induction n as [|n IH]; intros m Hwf Hlen.
  - apply nil_length_inv in Hlen. exists m. split; [done|]. split; [done|].
    split; [done|]. rewrite Hlen. destruct (OnEvicted (self m));
      by rewrite app_nil_r.
  - destruct (contents m) as [|x l] eqn:Hc; [done|].
    destruct (snoc_of_cons x l) as (rest & old & Hsnoc).
    rewrite Hsnoc in Hc, Hlen |- *.
    destruct (RemoveOldest_snoc rest old m Hwf Hc)
      as (m1 & Hrun & Hwf1 & Hc1 & Hcalls1 & _ & Hcb1).
    destruct (IH m1 Hwf1) as (m' & Hrun' & Hwf' & Hnil & Hcalls').
    { rewrite Hc1. rewrite length_app in Hlen. simpl in Hlen. lia. }
    exists m'. split; [cbn [RemoveOldest_n]; by rewrite (bind_Some _ _ _ _ _ Hrun)|].
    split; [done|]. split; [done|].
    rewrite Hcalls', Hcalls1, Hcb1, Hc1, reverse_snoc.
    destruct (OnEvicted (self m)); [by rewrite <- app_assoc|by rewrite !app_nil_r].
Qed.

(** X13.  Draining: in a reachable state, calling [RemoveOldest] as many
    times as [Len] reports empties the cache, and a callback that is set
    receives every entry once, least recently used first. *)
Theorem X13_drain m :
  reachable m →
  ∃ n m', Len m = Some (n, m) ∧
          RemoveOldest_n (Z.to_nat n) m = Some (tt, m') ∧
          Len m' = Some (0, m') ∧ contents m' = [] ∧
          calls m' = calls m ++ (if OnEvicted (self m)
                                 then reverse (contents m) else []).
Proof.
  intros Hwf%reachable_wf.
  destruct (RemoveOldest_n_drains (length (contents m)) m Hwf eq_refl)
    as (m' & Hrun & Hwf' & Hnil & Hcalls).
  exists (Z.of_nat (length (contents m))), m'.
  split; [by apply Len_spec|]. split; [by rewrite Nat2Z.id|].
  split; [by rewrite (Len_spec m' Hwf'), Hnil|]. done.
Qed.

(** X14.  In a reachable state [Remove] of a stored key lowers [Len] by
    exactly one and leaves every other key stored as before; afterwards
    [Get] of that key reports absent and a second [Remove] of it changes
    nothing. *)
Theorem X14_Remove_once k v m :
  reachable m → stored k m = Some v →
  ∃ m' n, Remove k m = Some (tt, m') ∧
          Len m = Some (n, m) ∧ Len m' = Some (n - 1, m') ∧
          Get k m' = Some (None, m') ∧ Remove k m' = Some (tt, m') ∧
          ∀ k', k' ≠ k → stored k' m' = stored k' m.
Proof.
  intros Hwf%reachable_wf Hs.
  destruct (Remove_present k v m Hwf Hs) as (e & l & Hl & He & Hen & Hrm).
  pose proof (wf_evicted e _ l m Hwf Hl He Hen) as Hwf'.
  pose proof (contents_evicted e _ l m Hwf Hl He Hen) as Hc'. simpl in Hc'.
  set (m' := evicted e (mk_entry k v) m) in Hrm, Hwf', Hc' |- *.
  assert (stored k m' = None) as Hs'.
  { apply stored_None_contents; [done|]. rewrite Hc'.
    intros ([k' v'] & Heq & [Hne _]%list_elem_of_filter)%list_elem_of_fmap.
    simpl in *. congruence. }
  assert (NoDup l) as Hnd.
  { unfold wf in Hwf. rewrite Hl in Hwf.
    destruct (cache (self m)); [|done]. by destruct Hwf. }
  exists m', (Z.of_nat (length (contents m))).
  split; [done|]. split; [by apply Len_spec|]. split.
  { rewrite (Len_spec m' Hwf').
    rewrite (contents_length (GoList.Remove e l) m' Hwf')
      by (unfold m', evicted; simpl; by rewrite Hl).
    rewrite (contents_length l m Hwf Hl).
    pose proof (Remove_length e l Hnd He). do 2 f_equal. lia. }
  split; [by apply Get_absent|]. split; [by apply Remove_absent|].
  intros k' Hne. apply stored_agree; [done..|].
  intros v'. rewrite Hc', list_elem_of_filter. simpl.
  split; [by intros [_ ?]|by intros ?].
Qed.

(** X15.  The callback sees the value last written: in a reachable state,
    [Add k v] of a stored key followed by [Remove k] calls a callback that
    is set exactly once, with [(k, v)], whatever value [k] had before; the
    update reaches the entry the list node carries. *)
Theorem X15_updated_value_evicted k v v0 m :
  reachable m → stored k m = Some v0 →
  ∃ m1 m2, Add k v m = Some (tt, m1) ∧ Remove k m1 = Some (tt, m2) ∧
           calls m2 = calls m ++ (if OnEvicted (self m) then [(k, v)] else []) ∧
           Get k m2 = Some (None, m2).
Proof.
  intros Hwf%reachable_wf Hs.
  destruct (Add_spec k v m Hwf) as (m1 & Hm1 & Hwf1 & _ & Hcb1 & _ & Hpost).
  rewrite Hs in Hpost. destruct Hpost as [Hc1 Hcalls1].
  assert (stored k m1 = Some v) as Hs1.
  { apply stored_contents; [done|]. rewrite Hc1. by left. }
  destruct (Remove_present k v m1 Hwf1 Hs1) as (e & l & Hl & He & Hen & Hrm).
  pose proof (wf_evicted e _ l m1 Hwf1 Hl He Hen) as Hwf2.
  pose proof (contents_evicted e _ l m1 Hwf1 Hl He Hen) as Hc2. simpl in Hc2.
  exists m1, (evicted e (mk_entry k v) m1). split; [done|]. split; [done|].
  split; [unfold evicted; simpl; by rewrite Hcalls1, Hcb1|].
  apply Get_absent; [done|]. apply stored_None_contents; [done|]. rewrite Hc2.
  intros ([k' v'] & Heq & [Hne _]%list_elem_of_filter)%list_elem_of_fmap.
  simpl in *. congruence.
Qed.

(** X16.  [Clear] keeps the configuration and the cache stays usable: in
    a reachable state with [MaxEntries] not negative, [Clear] followed by
    [Add k v] returns a cache with the same [MaxEntries] and [OnEvicted]
    that holds exactly [(k, v)]; the [Add] calls no callback. *)
Theorem X16_Clear_then_Add ord k v m :
  reachable m → Clear_order m ord → 0 ≤ MaxEntries (self m) →
  ∃ m1 m2, Clear_in ord m = Some (tt, m1) ∧ Add k v m1 = Some (tt, m2) ∧
           contents m2 = [(k, v)] ∧ calls m2 = calls m1 ∧
           MaxEntries (self m2) = MaxEntries (self m) ∧
           OnEvicted (self m2) = OnEvicted (self m).
Proof.
  intros Hwf%reachable_wf Hord Hmx.
  destruct (Clear_spec ord m Hwf Hord) as (m1 & Hm1 & Hl1 & Hc1 & Hmx1 & Hcb1 & _).
  assert (wf m1) as Hwf1 by (unfold wf; by rewrite Hl1, Hc1).
  assert (contents m1 = []) as Hnil by (unfold contents; by rewrite Hl1).
  destruct (Add_spec k v m1 Hwf1) as (m2 & Hm2 & _ & Hmx2 & Hcb2 & _ & Hpost).
  rewrite (stored_nil k m1 Hc1) in Hpost.
  assert (over_capacity m1 = false) as Hover.
  { unfold over_capacity. rewrite Hnil, Hmx1. simpl.
    destruct (decide (MaxEntries (self m) = 0)) as [->|Hz]; [done|].
    rewrite bool_decide_eq_true_2 by done. simpl.
    apply bool_decide_eq_false. lia. }
  rewrite Hover, Hnil in Hpost. destruct Hpost as [Hc2 Hcalls2].
  exists m1, m2. split; [done|]. split; [done|]. split; [done|].
  split; [done|]. split; congruence.
Qed.

End lru.


(** ** The claims on concrete caches: string keys, integer values *)

(** The memories the claims are instantiated at: the cache of capacity 2
    holding "a" and "b", three insertions, and the zero value. *)
Local Abbreviation ab_cache := (two_entries "a" "b" 1 2).

Local Abbreviation three_adds := ([("a", 1); ("b", 2); ("c", 3)] : list (string * Z)).

Local Abbreviation zero_value := (zero_Cache (Key := string) (Value := Z)).

(** C2.  From an empty cache of capacity 2 (with or without a callback),
    [Add("a",1); Add("b",2); Get("a")] returns (1, true) and leaves "a"
    in front of "b"; then [Add("c",3)] evicts "b", after which [Len] is 2,
    [Get("b")] reports absent, [Get("a")] returns (1, true) and
    [Get("c")] returns (3, true). *)
Theorem C2_scenario (cb : bool) :
  ∃ m3 m4 m5 m6 : Mem (Key := string) (Value := Z),
    Add_Add_Get "a" "b" 1 2 (on_self (with_OnEvicted cb) (New 2))
    = Some (Some 1, m3) ∧
    contents m3 = [("a", 1); ("b", 2)] ∧
    Add "c" 3 m3 = Some (tt, m4) ∧
    contents m4 = [("c", 3); ("a", 1)] ∧
    calls m4 = (if cb then [("b", 2)] else []) ∧
    Len m4 = Some (2, m4) ∧
    Get "b" m4 = Some (None, m4) ∧
    Get "a" m4 = Some (Some 1, m5) ∧
    Get "c" m5 = Some (Some 3, m6).
Proof.
  destruct cb; do 4 eexists; repeat split; vm_compute; reflexivity.
Qed.

Lemma C1_witness :
  0 < 2 ∧
  ∃ ns m, Add_each three_adds (on_self (with_OnEvicted true) (New 2))
          = Some (ns, m) ∧
          length ns = length three_adds ∧ Forall (λ n, n ≤ 2) ns.
Proof. split; [lia|apply (C1_capacity_bound 2 true three_adds); lia]. Defined.

Lemma C3_witness :
  reachable ab_cache ∧
  ∃ m1 m2 n,
    Add "c" 3 ab_cache = Some (tt, m1) ∧ Len m1 = Some (n, m1) ∧
    RemoveOldest m1 = Some (tt, m2) ∧
    (1 < n →
     (∃ old, last (contents m1) = Some old ∧ old.1 ≠ "c") ∧
     stored "c" m2 = Some 3).
Proof.
  split; [apply (two_entries_reachable "a" "b" 1 2)|].
  apply (C3_recency_on_write "c" 3 ab_cache), (two_entries_reachable "a" "b" 1 2).
Defined.

Lemma C4_witness :
  reachable ab_cache ∧
  (NoDup (contents ab_cache).*1 ∧
   (∀ mp l, cache (self ab_cache) = Some mp → ll (self ab_cache) = Some l →
      NoDup l ∧
      ∀ k e, mp !! k = Some e ↔ e ∈ l ∧ key <$> elems ab_cache !! e = Some k) ∧
   (∀ k v v0, stored k ab_cache = Some v0 →
      ∃ m', Add k v ab_cache = Some (tt, m') ∧
            cache (self m') = cache (self ab_cache) ∧
            dom (elems m') = dom (elems ab_cache) ∧
            length (contents m') = length (contents ab_cache) ∧
            contents m' = (k, v) :: filter (λ kv, kv.1 ≠ k) (contents ab_cache) ∧
            stored k m' = Some v)).
Proof.
  split; [apply (two_entries_reachable "a" "b" 1 2)|].
  apply (C4_unique_entry ab_cache), (two_entries_reachable "a" "b" 1 2).
Defined.

Lemma C5_witness :
  reachable ab_cache ∧
  ((∀ v, stored "a" ab_cache = Some v →
      ∃ m', Get "a" ab_cache = Some (Some v, m') ∧
            contents m' = ("a", v) :: filter (λ kv, kv.1 ≠ "a") (contents ab_cache) ∧
            cache (self m') = cache (self ab_cache) ∧
            elems m' = elems ab_cache ∧
            calls m' = calls ab_cache) ∧
   (stored "a" ab_cache = None → Get "a" ab_cache = Some (None, ab_cache))).
Proof.
  split; [apply (two_entries_reachable "a" "b" 1 2)|].
  apply (C5_Get "a" ab_cache), (two_entries_reachable "a" "b" 1 2).
Defined.

Lemma C6_witness :
  reachable ab_cache ∧
  ((∀ v, stored "a" ab_cache = Some v →
      ∃ m', Remove "a" ab_cache = Some (tt, m') ∧
            cache (self m') = (delete "a" <$> cache (self ab_cache)) ∧
            stored "a" m' = None ∧
            contents m' = filter (λ kv, kv.1 ≠ "a") (contents ab_cache) ∧
            ("a" ∉ (contents m').*1) ∧
            calls m' = calls ab_cache
                       ++ (if OnEvicted (self ab_cache) then [("a", v)] else [])) ∧
   (stored "a" ab_cache = None → Remove "a" ab_cache = Some (tt, ab_cache))).
Proof.
  split; [apply (two_entries_reachable "a" "b" 1 2)|].
  apply (C6_Remove "a" ab_cache), (two_entries_reachable "a" "b" 1 2).
Defined.

Lemma C7_witness :
  (reachable ab_cache ∧ Clear_order ab_cache (range_cache ab_cache)) ∧
  ∃ m' evs,
    Clear_in (range_cache ab_cache) ab_cache = Some (tt, m') ∧
    calls m' = calls ab_cache ++ evs ∧
    (if OnEvicted (self ab_cache)
     then evs ≡ₚ contents ab_cache else evs = []) ∧
    contents m' = [] ∧ Len m' = Some (0, m') ∧
    ∀ k, Get k m' = Some (None, m').
Proof.
  assert (Clear_order ab_cache (range_cache ab_cache)) as Hord
    by (unfold Clear_order; reflexivity).
  split; [split; [apply (two_entries_reachable "a" "b" 1 2)|exact Hord]|].
  apply (C7_Clear (range_cache ab_cache) ab_cache);
    [apply (two_entries_reachable "a" "b" 1 2)|exact Hord].
Defined.

Lemma C8_witness :
  "a" ≠ "b" ∧
  ∃ m, Add_Add "a" "b" 1 2 (on_self (with_OnEvicted true) (New 1)) = Some (tt, m) ∧
       calls m = [("a", 1)].
Proof.
  assert ("a" ≠ "b") as Hab by discriminate.
  split; [exact Hab|apply (C8_callback_once "a" "b" 1 2 Hab)].
Defined.

Lemma C9_witness :
  cache (self zero_value) = None ∧
  (Get "a" zero_value = Some (None, zero_value) ∧
   Len zero_value = Some (0, zero_value) ∧
   Remove "a" zero_value = Some (tt, zero_value) ∧
   RemoveOldest zero_value = Some (tt, zero_value) ∧
   (∀ ord, Clear_order zero_value ord →
      ∃ m', Clear_in ord zero_value = Some (tt, m') ∧
            cache (self m') = None ∧ calls m' = calls zero_value) ∧
   Add "a" 1 zero_value
   = Add "a" 1 (on_self (with_ll (Some GoList.New))
                  (on_self (with_cache (Some ∅)) zero_value)) ∧
   ∃ m', Add "a" 1 zero_value = Some (tt, m') ∧
         (∃ mp l, cache (self m') = Some mp ∧ ll (self m') = Some l) ∧
         (0 ≤ MaxEntries (self zero_value) →
          contents m' = [("a", 1)] ∧ stored "a" m' = Some 1 ∧
          calls m' = calls zero_value)).
Proof.
  split; [reflexivity|apply (C9_uninitialised "a" 1 zero_value); reflexivity].
Defined.

Lemma C10_witness :
  reachable ab_cache ∧
  ∃ m' evs n,
    Add "c" 3 ab_cache = Some (tt, m') ∧
    Len ab_cache = Some (n, ab_cache) ∧
    calls m' = calls ab_cache ++ (if OnEvicted (self ab_cache) then evs else []) ∧
    (evs ≠ [] ↔
     stored "c" ab_cache = None ∧ MaxEntries (self ab_cache) ≠ 0 ∧
     n + 1 > MaxEntries (self ab_cache)) ∧
    (evs ≠ [] →
     ∃ old, evs = [old] ∧ ("c", 3) :: contents ab_cache = contents m' ++ [old]) ∧
    (evs = [] → stored "c" ab_cache = None →
     contents m' = ("c", 3) :: contents ab_cache) ∧
    (∀ v0, stored "c" ab_cache = Some v0 →
       evs = [] ∧ Len m' = Some (n, m') ∧ stored "c" m' = Some 3 ∧
       ∀ k', k' ≠ "c" → stored k' m' = stored k' ab_cache).
Proof.
  split; [apply (two_entries_reachable "a" "b" 1 2)|].
  apply (C10_Add_callback "c" 3 ab_cache), (two_entries_reachable "a" "b" 1 2).
Defined.

(** ** The list model on small lists *)

Example MoveToFront_middle : GoList.MoveToFront 2%nat [1; 2; 3]%nat = [2; 1; 3]%nat.
Proof. reflexivity. Qed.

Example MoveToFront_foreign : GoList.MoveToFront 7%nat [1; 2; 3]%nat = [1; 2; 3]%nat.
Proof. reflexivity. Qed.

Example Remove_back : GoList.Remove 3%nat [1; 2; 3]%nat = [1; 2]%nat.
Proof. reflexivity. Qed.

Example Back_of_three : GoList.Back [1; 2; 3]%nat = Some 3%nat.
Proof. reflexivity. Qed.

(** ** The further properties on concrete caches *)

Local Abbreviation ab_reach := (two_entries_reachable "a" "b" 1 2).

(** The same cache after [MaxEntries] is set to 0. *)
Local Abbreviation ab_unlimited := (on_self (with_MaxEntries 0) ab_cache).

(** [New 2] after [Add("a", 1)]. *)
Local Abbreviation a_cache :=
  (default (New 2) (snd <$> Add "a" 1 (New (Key := string) (Value := Z) 2))).

Local Abbreviation show_Z := (pretty : Z → string).

Local Abbreviation show_string := (λ s : string, s).

Lemma X1_witness :
  reachable ab_cache ∧
  ((contents ab_cache = [] → RemoveOldest ab_cache = Some (tt, ab_cache)) ∧
   (∀ rest old, contents ab_cache = rest ++ [old] →
      ∃ m', RemoveOldest ab_cache = Some (tt, m') ∧
            contents m' = rest ∧ stored old.1 m' = None ∧
            Len m' = Some (Z.of_nat (length rest), m') ∧
            calls m' = calls ab_cache
                       ++ (if OnEvicted (self ab_cache) then [old] else []))).
Proof. split; [apply ab_reach|apply (X1_RemoveOldest ab_cache), ab_reach]. Defined.

Lemma X2_witness :
  reachable ab_cache ∧
  ((∀ k v, is_Some (Add k v ab_cache)) ∧
   (∀ k, is_Some (Get k ab_cache)) ∧
   (∀ k, is_Some (Remove k ab_cache)) ∧
   is_Some (RemoveOldest ab_cache) ∧
   is_Some (Len ab_cache) ∧
   (∀ ord, Clear_order ab_cache ord → is_Some (Clear_in ord ab_cache)) ∧
   (∀ ord, Clear_order ab_cache ord →
      is_Some (String_in show_string show_Z ord ab_cache))).
Proof.
  split; [apply ab_reach|].
  apply (X2_no_panic show_string show_Z ab_cache), ab_reach.
Defined.

Lemma X3_witness :
  (reachable ab_cache ∧ Clear_order ab_cache (range_cache ab_cache)) ∧
  ∃ es, es ≡ₚ contents ab_cache ∧
        String_in show_string show_Z (range_cache ab_cache) ab_cache
        = Some (foldl (λ acc kv,
                         acc +:+ String_line show_string show_Z kv.1
                                   (mk_entry kv.1 kv.2))
                      "" es, ab_cache).
Proof.
  assert (Clear_order ab_cache (range_cache ab_cache)) as Hord
    by (unfold Clear_order; reflexivity).
  split; [split; [apply ab_reach|exact Hord]|].
  apply (X3_String show_string show_Z (range_cache ab_cache) ab_cache);
    [apply ab_reach|exact Hord].
Defined.

Lemma X4_witness :
  reachable ab_cache ∧
  ((∀ k v, stored k ab_cache = Some v ↔ (k, v) ∈ contents ab_cache) ∧
   (∀ mp, cache (self ab_cache) = Some mp →
      Len ab_cache = Some (Z.of_nat (size mp), ab_cache))).
Proof.
  split; [apply ab_reach|apply (X4_index_matches_list ab_cache), ab_reach].
Defined.

Lemma X5_witness :
  (0 < 2 ∧ reachable_at 2 a_cache) ∧
  ∃ n, Len a_cache = Some (n, a_cache) ∧ 0 ≤ n ≤ 2.
Proof.
  assert (reachable_at 2 a_cache) as Hr.
  { apply (reachable_at_step 2 (New 2)); [apply reachable_at_New| |reflexivity].
    apply (step_Add "a" 1). reflexivity. }
  split; [split; [lia|exact Hr]|].
  apply (X5_bound_all_methods 2 a_cache); [lia|exact Hr].
Defined.

Lemma X6_witness :
  (reachable ab_unlimited ∧ MaxEntries (self ab_unlimited) = 0) ∧
  ∃ m', Add "c" 3 ab_unlimited = Some (tt, m') ∧
        calls m' = calls ab_unlimited ∧
        stored "c" m' = Some 3 ∧
        ∀ k', k' ≠ "c" → stored k' m' = stored k' ab_unlimited.
Proof.
  assert (reachable ab_unlimited) as Hr
    by (apply (reachable_step ab_cache); [apply ab_reach|apply step_MaxEntries]).
  split; [split; [exact Hr|reflexivity]|].
  apply (X6_unlimited "c" 3 ab_unlimited); [exact Hr|reflexivity].
Defined.

Lemma X7_witness :
  -1 < 0 ∧
  ∃ ns m, Add_each three_adds (on_self (with_OnEvicted true) (New (-1)))
          = Some (ns, m) ∧
          Forall (λ n, n = 0) ns ∧ length ns = length three_adds ∧
          contents m = [] ∧ calls m = (if true then three_adds else []).
Proof.
  split; [lia|apply (X7_negative_capacity (-1) true three_adds); lia].
Defined.

Lemma X8_witness :
  (reachable ab_cache ∧
   (0 ≤ MaxEntries (self ab_cache) ∨ contents ab_cache ≠ [])) ∧
  ∃ m1 m2, Add "c" 3 ab_cache = Some (tt, m1) ∧
           Get "c" m1 = Some (Some 3, m2).
Proof.
  assert (0 ≤ MaxEntries (self ab_cache) ∨ contents ab_cache ≠ []) as Hok
    by (left; vm_compute; discriminate).
  split; [split; [apply ab_reach|exact Hok]|].
  apply (X8_Add_then_Get "c" 3 ab_cache); [apply ab_reach|exact Hok].
Defined.

Lemma X9_witness :
  reachable ab_cache ∧
  ∃ m' n n',
    Add "c" 3 ab_cache = Some (tt, m') ∧ Len ab_cache = Some (n, ab_cache) ∧
    Len m' = Some (n', m') ∧ n ≤ n' ≤ n + 1 ∧
    (MaxEntries (self ab_cache) < n → MaxEntries (self m') < n').
Proof.
  split; [apply ab_reach|apply (X9_Add_Len "c" 3 ab_cache), ab_reach].
Defined.

Lemma X10_witness :
  (0 < 2 ∧ NoDup three_adds.*1) ∧
  ∃ m ev,
    Add_all three_adds (on_self (with_OnEvicted true) (New 2)) = Some (tt, m) ∧
    three_adds = ev ++ reverse (contents m) ∧
    calls m = (if true then ev else []) ∧
    length (contents m) = (Z.to_nat 2 `min` length three_adds)%nat.
Proof.
  assert (NoDup three_adds.*1) as Hnd
    by (apply (bool_decide_unpack _); vm_compute; exact I).
  split; [split; [lia|exact Hnd]|].
  apply (X10_insertion_order 2 true three_adds); [lia|exact Hnd].
Defined.

Lemma X11_witness :
  (reachable ab_cache ∧ stored "a" ab_cache = Some 1 ∧
   Len ab_cache = Some (2, ab_cache) ∧ 1 < 2) ∧
  ∃ m1 m2, Get "a" ab_cache = Some (Some 1, m1) ∧
           RemoveOldest m1 = Some (tt, m2) ∧ stored "a" m2 = Some 1.
Proof.
  split; [split; [apply ab_reach|split; [reflexivity|split; [reflexivity|lia]]]|].
  apply (X11_Get_then_RemoveOldest "a" 1 2 ab_cache);
    [apply ab_reach|reflexivity|reflexivity|lia].
Defined.

Lemma X12_witness :
  (reachable ab_cache ∧
   contents ab_cache = [] ++ [("b", 2); ("a", 1)] ∧
   MaxEntries (self ab_cache) = Z.of_nat (length (contents ab_cache)) ∧
   stored "c" ab_cache = None) ∧
  ∃ m1 m2, Get "a" ab_cache = Some (Some 1, m1) ∧
           Add "c" 3 m1 = Some (tt, m2) ∧
           contents m2 = ("c", 3) :: ("a", 1) :: [] ∧
           calls m2 = calls ab_cache
                      ++ (if OnEvicted (self ab_cache) then [("b", 2)] else []).
Proof.
  split; [split; [apply ab_reach|split; [reflexivity|split; reflexivity]]|].
  apply (X12_read_protects "a" 1 ("b", 2) [] "c" 3 ab_cache);
    [apply ab_reach|reflexivity|reflexivity|reflexivity].
Defined.

Lemma X13_witness :
  reachable ab_cache ∧
  ∃ n m', Len ab_cache = Some (n, ab_cache) ∧
          RemoveOldest_n (Z.to_nat n) ab_cache = Some (tt, m') ∧
          Len m' = Some (0, m') ∧ contents m' = [] ∧
          calls m' = calls ab_cache
                     ++ (if OnEvicted (self ab_cache)
                         then reverse (contents ab_cache) else []).
Proof. split; [apply ab_reach|apply (X13_drain ab_cache), ab_reach]. Defined.

Lemma X14_witness :
  (reachable ab_cache ∧ stored "a" ab_cache = Some 1) ∧
  ∃ m' n, Remove "a" ab_cache = Some (tt, m') ∧
          Len ab_cache = Some (n, ab_cache) ∧ Len m' = Some (n - 1, m') ∧
          Get "a" m' = Some (None, m') ∧ Remove "a" m' = Some (tt, m') ∧
          ∀ k', k' ≠ "a" → stored k' m' = stored k' ab_cache.
Proof.
  split; [split; [apply ab_reach|reflexivity]|].
  apply (X14_Remove_once "a" 1 ab_cache); [apply ab_reach|reflexivity].
Defined.

Lemma X15_witness :
  (reachable ab_cache ∧ stored "a" ab_cache = Some 1) ∧
  ∃ m1 m2, Add "a" 7 ab_cache = Some (tt, m1) ∧
           Remove "a" m1 = Some (tt, m2) ∧
           calls m2 = calls ab_cache
                      ++ (if OnEvicted (self ab_cache) then [("a", 7)] else []) ∧
           Get "a" m2 = Some (None, m2).
Proof.
  split; [split; [apply ab_reach|reflexivity]|].
  apply (X15_updated_value_evicted "a" 7 1 ab_cache); [apply ab_reach|reflexivity].
Defined.

Lemma X16_witness :
  (reachable ab_cache ∧ Clear_order ab_cache (range_cache ab_cache) ∧
   0 ≤ MaxEntries (self ab_cache)) ∧
  ∃ m1 m2, Clear_in (range_cache ab_cache) ab_cache = Some (tt, m1) ∧
           Add "c" 3 m1 = Some (tt, m2) ∧
           contents m2 = [("c", 3)] ∧ calls m2 = calls m1 ∧
           MaxEntries (self m2) = MaxEntries (self ab_cache) ∧
           OnEvicted (self m2) = OnEvicted (self ab_cache).
Proof.
  assert (Clear_order ab_cache (range_cache ab_cache)) as Hord
    by (unfold Clear_order; reflexivity).
  assert (0 ≤ MaxEntries (self ab_cache)) as Hmx by (vm_compute; discriminate).
  split; [split; [apply ab_reach|split; [exact Hord|exact Hmx]]|].
  apply (X16_Clear_then_Add (range_cache ab_cache) "c" 3 ab_cache);
    [apply ab_reach|exact Hord|exact Hmx].
Defined.
